(** * sd_engine: the prompt blender, the image cache and the player of [main.py]

    A shallow embedding of the control logic of [src/main.py]: the prompt
    combiner [combine_prompts], the [Player] methods [move], [look],
    [generate_image] and [process_generated_image], the worker thread
    [run_generation] that [generate_image] starts, and one iteration of the
    loop of [main].

    Conventions of the embedding.
    - Python floats (positions, angles, weights) are rationals [Q]; numeric
      statements are up to [Qeq] ([==]).  Rounding error, infinities and NaN
      of IEEE arithmetic are outside the model.
    - [int(x)] on a float truncates toward zero: [py_int].
    - Python strings are [string]; [if combined:] is non-emptiness.
    - The dict [image_cache] is a [gmap]; [self.cache_key] may be Python's
      [None] (before the first [generate_image]), so keys are [option (Z * Z)].
    - [queue.Queue] is a FIFO list, oldest entry first.
    - External collaborators are inputs: the tokenizer is a function
      [token_length], the diffusion pipeline's result is carried by the worker
      step, [np.cos]/[np.sin] of the yaw and the pressed keys are carried by
      the frame's [Input].  OpenGL's texture names are the positions in
      [gl_textures] (names start at 1).
    - An uncaught [IndexError] is [None] in the option monad. *)

From Stdlib Require Import ZArith QArith Qminmax Lia Ascii Reals Qreals Lra.
From stdpp Require Import gmap strings list.

Local Open Scope Z_scope.

(** ** Numbers *)

(** [int(x)] for a float [x]: truncation toward zero. *)
Definition py_int (x : Q) : Z := Z.quot (Qnum x) (Z.pos (Qden x)).

(** [w > 0] on floats. *)
Definition Qpositive (w : Q) : bool := negb (Qle_bool w 0).

(** [np.clip(x, lo, hi)], that is [minimum(maximum(x, lo), hi)]. *)
Definition np_clip (x lo hi : Q) : Q := Qmin (Qmax x lo) hi.

Definition vec : Type := (Q * Q)%type.

Definition vadd (u v : vec) : vec := (u.1 + v.1, u.2 + v.2)%Q.
Definition vsub (u v : vec) : vec := (u.1 - v.1, u.2 - v.2)%Q.

(** Squared Euclidean norm. *)
Definition norm2 (v : vec) : Q := (v.1 * v.1 + v.2 * v.2)%Q.

(** [np.linalg.norm(v) > 0.1]: the norm is the non-negative square root of
    [norm2 v], so it exceeds [1/10] exactly when [norm2 v] exceeds [1/100]. *)
Definition norm_gt_tenth (v : vec) : bool := negb (Qle_bool (norm2 v) (1 # 100)).

(** [np.any(v)]: some component is non-zero. *)
Definition np_any (v : vec) : bool := negb (Qeq_bool v.1 0) || negb (Qeq_bool v.2 0).

(** ** Sequences *)

(** [l[i]] for a Python list and an int: negative indices count from the
    end, anything else out of range raises [IndexError] ([None]). *)
Definition py_index {A : Type} (l : list A) (i : Z) : option A :=
  if 0 <=? i then l !! Z.to_nat i
  else if - Z.of_nat (length l) <=? i then l !! Z.to_nat (Z.of_nat (length l) + i)
  else None.

(** Truth value of a Python string. *)
Definition truthy (s : string) : bool :=
  match s with
  | EmptyString => false
  | String _ _ => true
  end.

(** ** The prompt grid *)

Definition grid_size : Z * Z := (5, 5).

Definition grid_prompts : list (list string) :=
  [ ["A futuristic cityscape"; "A serene beach"; "A dense forest"; "A snowy mountain"; "A desert landscape"];
    ["An underwater coral reef"; "A bustling medieval market"; "An alien planet"; "A magical floating castle"; "A volcanic landscape"];
    ["A night sky with galaxies"; "A sunflower field"; "An abstract painting"; "A futuristic spaceship interior"; "A peaceful Japanese garden"];
    ["A haunted house on a hill"; "A tropical rainforest"; "A cyberpunk street scene"; "An ice cave with crystals"; "A grassy meadow with wildflowers"];
    ["An ancient temple in the jungle"; "A futuristic laboratory"; "A mystical swamp with glowing plants"; "A grand library with endless shelves"; "An open ocean with whales"] ]%string.

Definition grid : list (list string) := grid_prompts.

(** [grid[x][y]]. *)
Definition grid_at (x y : Z) : option string :=
  row ← py_index grid x; py_index row y.

(** ** State *)

(** A PIL image as the pipeline returns it, identified by a number. *)
Definition Image : Type := nat.

(** An OpenGL texture name. *)
Definition Texture : Type := nat.

(** A cache key: [(int(x * 10), int(y * 10))], or Python's [None]. *)
Abbreviation CacheKey := (option (Z * Z)).

(** The fields of [Player.__init__]. *)
Record Player : Type := mkPlayer {
  position : vec;
  angle : vec;
  image : option Texture;
  generating : bool;
  last_position : option vec;
  cache_key : CacheKey;
  image_queue : list (CacheKey * Image)
}.

(** Where a worker thread stands in [run_generation]: before the pipeline
    call returns or raises, or before its [finally] clause. *)
Inductive worker_pc : Type := Producing | Finishing.

(** A started thread running the closure [run_generation]; the closure
    holds [combined_prompt] and [self]. *)
Record Worker : Type := mkWorker {
  combined_prompt : string;
  pc : worker_pc
}.

(** The player, the module-level dict [image_cache], the textures created so
    far (the texture named [n] is entry [n - 1]), the live worker threads and
    what was printed. *)
Record World : Type := mkWorld {
  player : Player;
  image_cache : gmap CacheKey Texture;
  gl_textures : list Image;
  threads : list Worker;
  stdout : list string
}.

Definition Player_init (pos : vec) : Player :=
  {| position := pos; angle := (0, 0)%Q; image := None; generating := false;
     last_position := None; cache_key := None; image_queue := [] |}.

Definition set_position (v : vec) (p : Player) : Player :=
  mkPlayer v (angle p) (image p) (generating p) (last_position p) (cache_key p) (image_queue p).
Definition set_angle (v : vec) (p : Player) : Player :=
  mkPlayer (position p) v (image p) (generating p) (last_position p) (cache_key p) (image_queue p).
Definition set_image (t : option Texture) (p : Player) : Player :=
  mkPlayer (position p) (angle p) t (generating p) (last_position p) (cache_key p) (image_queue p).
Definition set_generating (b : bool) (p : Player) : Player :=
  mkPlayer (position p) (angle p) (image p) b (last_position p) (cache_key p) (image_queue p).
Definition set_last_position (v : option vec) (p : Player) : Player :=
  mkPlayer (position p) (angle p) (image p) (generating p) v (cache_key p) (image_queue p).
Definition set_cache_key (k : CacheKey) (p : Player) : Player :=
  mkPlayer (position p) (angle p) (image p) (generating p) (last_position p) k (image_queue p).
Definition set_image_queue (q : list (CacheKey * Image)) (p : Player) : Player :=
  mkPlayer (position p) (angle p) (image p) (generating p) (last_position p) (cache_key p) q.

Definition set_player (p : Player) (w : World) : World :=
  mkWorld p (image_cache w) (gl_textures w) (threads w) (stdout w).
Definition set_image_cache (c : gmap CacheKey Texture) (w : World) : World :=
  mkWorld (player w) c (gl_textures w) (threads w) (stdout w).
Definition set_gl_textures (g : list Image) (w : World) : World :=
  mkWorld (player w) (image_cache w) g (threads w) (stdout w).
Definition set_threads (ts : list Worker) (w : World) : World :=
  mkWorld (player w) (image_cache w) (gl_textures w) ts (stdout w).
Definition set_stdout (out : list string) (w : World) : World :=
  mkWorld (player w) (image_cache w) (gl_textures w) (threads w) out.

(** A world with an empty cache, no texture, no thread and no output. *)
Definition new_world (p : Player) : World :=
  {| player := p; image_cache := ∅; gl_textures := []; threads := []; stdout := [] |}.

(** ** Player.move and Player.look *)

Definition move (direction : vec) (p : Player) : Player :=
  let pos := vadd (position p) direction in
  set_position (np_clip pos.1 0 (inject_Z (grid_size.1 - 1)),
                np_clip pos.2 0 (inject_Z (grid_size.2 - 1))) p.

Definition look (d_angle : vec) (p : Player) : Player :=
  let a := vadd (angle p) d_angle in
  set_angle (a.1, np_clip a.2 (inject_Z (-90)) (inject_Z 90)) p.

(** [(int(self.position[0] * 10), int(self.position[1] * 10))]. *)
Definition key_of (pos : vec) : CacheKey :=
  Some (py_int (pos.1 * 10), py_int (pos.2 * 10)).

(** ** combine_prompts *)

Definition separator : string := " | ".

Section Program.

(** [len(model.tokenizer.encode(s))], the external tokenizer. *)
Variable token_length : string → nat.

(** The body of the [for] loop of [combine_prompts], [combined] being the
    accumulator and [pw] what is left of [zip(prompts, weights)].  The label
    is appended first and the length is tested afterwards; [break] returns
    the accumulator with that label in it. *)
Fixpoint combine_loop (max_length : Z) (combined : string)
    (pw : list (string * Q)) : string :=
  match pw with
  | [] => combined
  | (prompt, weight) :: rest =>
      if Qpositive weight then
        let combined' :=
          if truthy combined then (combined +:+ separator +:+ prompt)%string
          else prompt in
        if max_length <? Z.of_nat (token_length combined') then combined'
        else combine_loop max_length combined' rest
      else combine_loop max_length combined rest
  end.

Definition combine_prompts (prompts : list string) (weights : list Q)
    (max_length : Z) : string :=
  combine_loop max_length "" (zip prompts weights).

(** The four labels around a position, lines 117-127 of [generate_image]. *)
Definition interpolation_prompts (position : vec) : option (list string) :=
  let x0 := py_int position.1 in
  let y0 := py_int position.2 in
  let x1 := Z.min (x0 + 1) (grid_size.1 - 1) in
  let y1 := Z.min (y0 + 1) (grid_size.2 - 1) in
  p00 ← grid_at x0 y0;
  p10 ← grid_at x1 y0;
  p01 ← grid_at x0 y1;
  p11 ← grid_at x1 y1;
  Some [p00; p10; p01; p11].

(** The bilinear weights, lines 119-132. *)
Definition interpolation_weights (position : vec) : list Q :=
  let x0 := py_int position.1 in
  let y0 := py_int position.2 in
  let t_x := (position.1 - inject_Z x0)%Q in
  let t_y := (position.2 - inject_Z y0)%Q in
  [ (1 - t_x) * (1 - t_y); t_x * (1 - t_y); (1 - t_x) * t_y; t_x * t_y ]%Q.

(** [combined_prompt] of [generate_image], with the default
    [max_length=77]. *)
Definition combined_prompt_at (position : vec) : option string :=
  prompts ← interpolation_prompts position;
  Some (combine_prompts prompts (interpolation_weights position) 77).

(** ** Player.generate_image *)

(** [threading.Thread(target=run_generation).start()]. *)
Definition spawn (t : Worker) (w : World) : World :=
  set_threads (threads w ++ [t]) w.

(** [generate_image]: nothing while [generating]; otherwise the flag, the
    last position and the key are set, a cached texture is shown at once
    (and the flag cleared), and on a miss the prompt is blended and a worker
    thread is started with the flag left set. *)
Definition generate_image (w : World) : option World :=
  let p := player w in
  if generating p then Some w
  else
    let p1 := set_cache_key (key_of (position p))
                (set_last_position (Some (position p)) (set_generating true p)) in
    match image_cache w !! cache_key p1 with
    | Some tex => Some (set_player (set_generating false (set_image (Some tex) p1)) w)
    | None =>
        prompt ← combined_prompt_at (position p1);
        Some (spawn {| combined_prompt := prompt; pc := Producing |} (set_player p1 w))
    end.

(** ** The worker thread, run_generation *)

(** The [try] block with its [except] clause, as one step of worker [i]:
    the pipeline returns an image ([inl]), which is put on the queue under
    the player's current [cache_key], or something raises ([inr], the
    exception's text), which is printed. *)
Definition thread_produce (i : nat) (result : Image + string) (w : World) : option World :=
  t ← threads w !! i;
  match pc t with
  | Finishing => None
  | Producing =>
      let w1 := set_threads (<[i := mkWorker (combined_prompt t) Finishing]> (threads w)) w in
      match result with
      | inl high_res =>
          let p := player w1 in
          Some (set_player (set_image_queue (image_queue p ++ [(cache_key p, high_res)]) p) w1)
      | inr e =>
          Some (set_stdout (stdout w1 ++ [("Error during image generation: " +:+ e)%string]) w1)
      end
  end.

(** The [finally] clause, after which the thread is over. *)
Definition thread_finally (i : nat) (w : World) : option World :=
  t ← threads w !! i;
  match pc t with
  | Producing => None
  | Finishing =>
      Some (set_threads (delete i (threads w)) (set_player (set_generating false (player w)) w))
  end.

(** The whole body of [run_generation], uninterrupted. *)
Definition run_generation (i : nat) (result : Image + string) (w : World) : option World :=
  w1 ← thread_produce i result w; thread_finally i w1.

(** ** Player.process_generated_image *)

(** [image_from_pil]: a new texture is created from the image and its name
    returned. *)
Definition image_from_pil (img : Image) (w : World) : Texture * World :=
  (S (length (gl_textures w)), set_gl_textures (gl_textures w ++ [img]) w).

(** One [get_nowait()]: on [queue.Empty] nothing happens; otherwise the
    oldest entry is taken, uploaded, stored under its key and shown. *)
Definition process_generated_image (w : World) : World :=
  match image_queue (player w) with
  | [] => w
  | (key, img) :: rest =>
      let w1 := set_player (set_image_queue rest (player w)) w in
      let '(texture_id, w2) := image_from_pil img w1 in
      let w3 := set_image_cache (<[key := texture_id]> (image_cache w2)) w2 in
      set_player (set_image (Some texture_id) (player w3)) w3
  end.

(** ** One iteration of the loop of main *)

(** What one frame reads from outside: the movement keys, [np.cos] and
    [np.sin] of the yaw, and [pygame.mouse.get_rel()]. *)
Record Input : Type := mkInput {
  key_w : bool; key_s : bool; key_a : bool; key_d : bool;
  cos_yaw : Q; sin_yaw : Q;
  mouse_rel : Z * Z
}.

Definition move_speed : Q := 5 # 100.
Definition mouse_sensitivity : Q := 1 # 10.

(** Lines 285-293. *)
Definition key_direction (i : Input) : vec :=
  let d : vec := (0, 0)%Q in
  let d : vec := if key_w i then (d.1, d.2 - move_speed)%Q else d in
  let d : vec := if key_s i then (d.1, d.2 + move_speed)%Q else d in
  let d : vec := if key_a i then (d.1 - move_speed, d.2)%Q else d in
  let d : vec := if key_d i then (d.1 + move_speed, d.2)%Q else d in
  d.

(** Lines 305-306: the test that guards the call of [generate_image]. *)
Definition moved_significantly (p : Player) : bool :=
  match last_position p with
  | None => true
  | Some lp => norm_gt_tenth (vsub (position p) lp)
  end.

Definition maybe_regenerate (w : World) : option World :=
  if moved_significantly (player w) then generate_image w else Some w.

(** Lines 295-306. *)
Definition handle_movement (i : Input) (w : World) : option World :=
  let direction := key_direction i in
  if np_any direction then
    let dx := (direction.1 * cos_yaw i - direction.2 * sin_yaw i)%Q in
    let dy := (direction.1 * sin_yaw i + direction.2 * cos_yaw i)%Q in
    maybe_regenerate (set_player (move (dx, dy) (player w)) w)
  else Some w.

(** Lines 284-313: movement, mouse look, then one queue poll. *)
Definition frame (i : Input) (w : World) : option World :=
  w1 ← handle_movement i w;
  let d_angle : vec := (inject_Z (mouse_rel i).1 * mouse_sensitivity,
                        inject_Z (mouse_rel i).2 * mouse_sensitivity)%Q in
  let w2 := set_player (look d_angle (player w1)) w1 in
  Some (process_generated_image w2).

(** [main] before its loop: [Player((2.5, 2.5))] and the first
    [generate_image()]. *)
Definition main_start : option World :=
  generate_image (new_world (Player_init (5 # 2, 5 # 2)%Q)).

(** ** Runs *)

(** What can happen next: a method of the player is called, the loop runs
    one iteration, or a worker thread takes a step. *)
Inductive op : Type :=
| Move (direction : vec)
| Look (d_angle : vec)
| GenerateImage
| ProcessGeneratedImage
| Frame (i : Input)
| ThreadProduce (i : nat) (result : Image + string)
| ThreadFinally (i : nat).

Definition step (o : op) (w : World) : option World :=
  match o with
  | Move direction => Some (set_player (move direction (player w)) w)
  | Look d_angle => Some (set_player (look d_angle (player w)) w)
  | GenerateImage => generate_image w
  | ProcessGeneratedImage => Some (process_generated_image w)
  | Frame i => frame i w
  | ThreadProduce i result => thread_produce i result w
  | ThreadFinally i => thread_finally i w
  end.

Fixpoint run (os : list op) (w : World) : option World :=
  match os with
  | [] => Some w
  | o :: os' => w' ← step o w; run os' w'
  end.

End Program.

(** ** Player.draw and Player.render_sphere *)

(** The OpenGL calls of [draw] and [render_sphere], as a log. *)
Inductive gl_call : Type :=
| GlClear
| GlLoadIdentity
| GluLookAt (eye center up : Q * Q * Q)
| GlRotatef (angle x y z : Q)
| GlEnableTexture2D
| GlBindTexture (texture : Texture)
| GlDisableTexture2D
| GlBeginQuadStrip
| GlTexCoord2f (u v : Q)
| GlVertex3f (x y z : Q)
| GlEnd.

(** [x / n] for a float [x] and an int [n]: [ZeroDivisionError] ([None]) when
    [n] is 0. *)
Definition float_div (x : Q) (n : Z) : option Q :=
  if n =? 0 then None else Some (x / inject_Z n)%Q.

(** A [for] loop whose body logs calls and may raise: the log up to the
    exception is kept, and the flag tells whether one was raised. *)
Fixpoint gl_for {A : Type} (xs : list A) (body : A → list gl_call * bool) :
    list gl_call * bool :=
  match xs with
  | [] => ([], false)
  | x :: xs' =>
      let '(calls, raised) := body x in
      if raised then (calls, true)
      else let '(calls', raised') := gl_for xs' body in (calls ++ calls', raised')
  end.

Section Renderer.

(** [np.pi], [np.sin] and [np.cos]. *)
Variable np_pi : Q.
Variable np_sin : Q → Q.
Variable np_cos : Q → Q.

(** The body of the inner loop of [render_sphere], for slice [j] of stack
    [i]: two texture coordinates and two vertices. *)
Definition sphere_slice (radius : Q) (slices stacks i j : Z) : list gl_call * bool :=
  match float_div (2 * np_pi * inject_Z j) slices with
  | None => ([], true)
  | Some lng =>
      match float_div (inject_Z j) slices,
            float_div (inject_Z i) stacks, float_div (inject_Z (i + 1)) stacks with
      | Some u, Some v0, Some v1 =>
          let x := np_cos lng in
          let y := np_sin lng in
          let lat0 := (np_pi * (- (1 # 2) + v0))%Q in
          let z0 := (np_sin lat0 * radius)%Q in
          let zr0 := (np_cos lat0 * radius)%Q in
          let lat1 := (np_pi * (- (1 # 2) + v1))%Q in
          let z1 := (np_sin lat1 * radius)%Q in
          let zr1 := (np_cos lat1 * radius)%Q in
          ([ GlTexCoord2f u v0; GlVertex3f (x * zr0) (y * zr0) z0;
             GlTexCoord2f u v1; GlVertex3f (x * zr1) (y * zr1) z1 ], false)
      | _, _, _ => ([], true)
      end
  end.

(** The body of the outer loop: one quad strip.  The latitudes are computed
    before [glBegin], so a zero [stacks] would raise before it. *)
Definition sphere_stack (radius : Q) (slices stacks i : Z) : list gl_call * bool :=
  match float_div (inject_Z i) stacks, float_div (inject_Z (i + 1)) stacks with
  | Some _, Some _ =>
      let '(calls, raised) :=
        gl_for (seqZ 0 (slices + 1)) (sphere_slice radius slices stacks i) in
      if raised then (GlBeginQuadStrip :: calls, true)
      else (GlBeginQuadStrip :: calls ++ [GlEnd], false)
  | _, _ => ([], true)
  end.

Definition render_sphere (radius : Q) (slices stacks : Z) : list gl_call * bool :=
  gl_for (seqZ 0 stacks) (sphere_stack radius slices stacks).

(** [draw]: nothing when [self.image] is falsy ([None], or the int 0);
    otherwise the camera is set up, the image bound and the sphere drawn. *)
Definition draw (p : Player) : list gl_call * bool :=
  match image p with
  | None => ([], false)
  | Some O => ([], false)
  | Some texture =>
      let '(sphere, raised) := render_sphere 50 64 64 in
      let setup :=
        [ GlClear; GlLoadIdentity;
          GluLookAt (0, 0, 0)%Q (0, 0, -1)%Q (0, 1, 0)%Q;
          GlRotatef (- (angle p).2) 1 0 0;
          GlRotatef (- (angle p).1) 0 1 0;
          GlEnableTexture2D; GlBindTexture texture ] in
      if raised then (setup ++ sphere, true)
      else (setup ++ sphere ++ [GlDisableTexture2D], false)
  end.

End Renderer.

(** The texture coordinates of a log are within the unit square. *)
Definition tex_coords_in_unit_square (calls : list gl_call) : Prop :=
  ∀ u v : Q, GlTexCoord2f u v ∈ calls →
    ((0 <= u)%Q ∧ (u <= 1)%Q) ∧ ((0 <= v)%Q ∧ (v <= 1)%Q).

(** The number of vertices of a log. *)
Definition is_vertex (c : gl_call) : bool :=
  match c with
  | GlVertex3f _ _ _ => true
  | _ => false
  end.

Definition count_vertices (calls : list gl_call) : nat :=
  length (List.filter is_vertex calls).

(** ** Vocabulary of the properties *)

(** A position inside the grid: [[0, width - 1] x [0, height - 1]]. *)
Definition in_bounds (pos : vec) : Prop :=
  (0 <= pos.1 <= inject_Z (grid_size.1 - 1))%Q ∧
  (0 <= pos.2 <= inject_Z (grid_size.2 - 1))%Q.

(** A valid index into the prompt grid. *)
Definition valid_index (i : Z) : Prop := 0 ≤ i < Z.of_nat (length grid).

(** A sequence of [move] calls, and of [look] calls, oldest first. *)
Definition move_all (ds : list vec) (p : Player) : Player :=
  foldl (λ q d, move d q) p ds.

Definition look_all (ds : list vec) (p : Player) : Player :=
  foldl (λ q d, look d q) p ds.

(** Sum of a list of floats. *)
Definition Qsum (l : list Q) : Q := foldr Qplus 0%Q l.

(** The labels of [zip(prompts, weights)] whose weight is positive, in
    order. *)
Fixpoint positive_labels (pw : list (string * Q)) : list string :=
  match pw with
  | [] => []
  | (prompt, weight) :: rest =>
      if Qpositive weight then prompt :: positive_labels rest
      else positive_labels rest
  end.

(** Labels joined by the separator. *)
Definition join_labels (ls : list string) : string := String.concat separator ls.

(** A stand-in for the external tokenizer, used in the examples only: a
    start token, an end token and one token per blank-separated word. *)
Fixpoint count_words (in_word : bool) (s : string) : nat :=
  match s with
  | EmptyString => 0
  | String c rest =>
      if Ascii.eqb c " "%char then count_words false rest
      else ((if in_word then 0 else 1) + count_words true rest)%nat
  end.

Definition word_tokens (s : string) : nat := (2 + count_words false s)%nat.

(** The yaw is 0 ([cos = 1], [sin = 0]) and the mouse is still. *)
Definition keys (w s a d : bool) : Input := mkInput w s a d 1 0 (0, 0).

(** A frame with no key pressed. *)
Definition idle : Input := keys false false false false.

(** Two productions finish, for the keys [(25, 25)] and [(26, 25)], before
    the queue is polled. *)
Definition two_results_run : list op :=
  [ ThreadProduce 0 (inl 7%nat); ThreadFinally 0;
    Move (3 # 20, 0)%Q; GenerateImage;
    ThreadProduce 0 (inl 8%nat); ThreadFinally 0 ].

(** The player has no [last_position], or is further than 0.1 from it. *)
Definition significant_move (p : Player) : Prop :=
  last_position p = None ∨
  ∃ lp : vec, last_position p = Some lp ∧ (1 # 100 < norm2 (vsub (position p) lp))%Q.

(** Frames of the loop of [main], the yaw being 0 throughout: the first
    production (for key [(25, 25)]) completes and is cached, the player walks
    right to x = 2.65, where a second production (for key [(26, 25)]) is
    requested, completes and is cached; the player walks back to x = 2.5,
    where the cached image is shown, then right again to x = 2.6. *)
Definition revisit_run : list op :=
  [ ThreadProduce 0 (inl 7%nat); ThreadFinally 0; Frame idle;
    Frame (keys false false false true); Frame (keys false false false true);
    Frame (keys false false false true);
    ThreadProduce 0 (inl 8%nat); ThreadFinally 0; Frame idle;
    Frame (keys false false true false); Frame (keys false false true false);
    Frame (keys false false true false);
    Frame (keys false false false true); Frame (keys false false false true) ].

(** Frames of the loop of [main] in which two productions are made for
    the same key [(25, 25)].  The first is requested at [(2.5, 2.5)] by
    [main_start].  While it runs the player steps right with the key [d],
    turning between the frames (the mouse deltas give yaws of 53.1 and 73.7
    degrees, whose cosine and sine are taken as 3/5, 4/5 and 7/25, 24/25).
    The first worker finishes between the second and third frames; the third
    frame reaches [(2.594, 2.588)], further than 0.1 from [(2.5, 2.5)] and
    still with key [(25, 25)], requests again, and then polls the first
    result.  The second worker finishes and the last frame polls its
    result. *)
Definition overwrite_run_1 : list op :=
  [ Frame (mkInput false false false true 1 0 (531, 0));
    Frame (mkInput false false false true (3 # 5) (4 # 5) (206, 0));
    ThreadProduce 0 (inl 7%nat); ThreadFinally 0;
    Frame (mkInput false false false true (7 # 25) (24 # 25) (0, 0)) ].

Definition overwrite_run_2 : list op :=
  [ ThreadProduce 0 (inl 8%nat); ThreadFinally 0;
    Frame (mkInput false false false false (7 # 25) (24 # 25) (0, 0)) ].

(** ** Vocabulary of the invariants *)

(** A key derived from a position of the grid: both components within
    [0 .. 10 * (size - 1)]. *)
Definition valid_key (k : CacheKey) : Prop :=
  ∃ a b : Z, k = Some (a, b) ∧
    0 ≤ a ≤ 10 * (grid_size.1 - 1) ∧ 0 ≤ b ≤ 10 * (grid_size.2 - 1).

(** What holds of the world all along an execution that starts with a new
    player inside the grid. *)
Record world_inv (w : World) : Prop := mk_world_inv {
  inv_position : in_bounds (position (player w));
  inv_threads : (length (threads w) ≤ 1)%nat;
  inv_generating : generating (player w) = true ↔ threads w ≠ [];
  inv_cache_key : cache_key (player w) = last_position (player w) ≫= key_of;
  inv_last_position : ∀ lp : vec, last_position (player w) = Some lp → in_bounds lp;
  inv_requested : threads w ≠ [] → is_Some (last_position (player w));
  inv_queue : Forall (λ e : CacheKey * Image, valid_key e.1) (image_queue (player w));
  inv_cache_keys : ∀ (k : CacheKey) (t : Texture), image_cache w !! k = Some t → valid_key k;
  inv_cache_textures : ∀ (k : CacheKey) (t : Texture),
    image_cache w !! k = Some t → (1 ≤ t ≤ length (gl_textures w))%nat;
  inv_cache_injective : ∀ (k1 k2 : CacheKey) (t : Texture),
    image_cache w !! k1 = Some t → image_cache w !! k2 = Some t → k1 = k2;
  inv_image : ∀ t : Texture,
    image (player w) = Some t → ∃ k : CacheKey, image_cache w !! k = Some t
}.

(** The worlds an execution can be in: a player is created inside the grid,
    then methods are called, frames run and worker threads take steps. *)
Definition reachable (token_length : string → nat) (w : World) : Prop :=
  ∃ (pos : vec) (os : list op),
    in_bounds pos ∧ run token_length os (new_world (Player_init pos)) = Some w.

(** [n] polls of the queue in a row. *)
Definition poll (n : nat) (w : World) : World := Nat.iter n process_generated_image w.

(** Every key a position of the grid can have. *)
Definition all_keys : list CacheKey :=
  a ← seqZ 0 (10 * (grid_size.1 - 1) + 1);
  b ← seqZ 0 (10 * (grid_size.2 - 1) + 1);
  [Some (a, b)].

(** Frames of the loop of [main], the yaw being 0 throughout: the keys
    [(25, 25)] and [(26, 25)] are produced and cached one after the other
    (textures 1 and 2, the second being shown); the player walks on to
    x = 2.8, where a third production (for key [(28, 25)]) is requested and
    keeps running, and walks back to x = 2.55. *)
Definition busy_revisit_run : list op :=
  [ ThreadProduce 0 (inl 7%nat); ThreadFinally 0; Frame idle;
    Frame (keys false false false true); Frame (keys false false false true);
    Frame (keys false false false true);
    ThreadProduce 0 (inl 8%nat); ThreadFinally 0; Frame idle;
    Frame (keys false false false true); Frame (keys false false false true);
    Frame (keys false false false true);
    Frame (keys false false true false); Frame (keys false false true false);
    Frame (keys false false true false); Frame (keys false false true false);
    Frame (keys false false true false) ].

(** ** Numbers: lemmas *)

Lemma Qpositive_true (w : Q) : Qpositive w = true ↔ (0 < w)%Q.
Proof.
  unfold Qpositive. rewrite negb_true_iff, <- not_true_iff_false, Qle_bool_iff.
  split; [apply Qnot_le_lt | apply Qlt_not_le].
Qed.

Lemma Qpositive_false (w : Q) : Qpositive w = false ↔ (w <= 0)%Q.
Proof. unfold Qpositive. by rewrite negb_false_iff, Qle_bool_iff. Qed.

Lemma np_clip_bounds (x lo hi : Q) :
  (lo <= hi)%Q → (lo <= np_clip x lo hi <= hi)%Q.
Proof.
  intros Hle. unfold np_clip. split.
  - apply Q.min_glb; [apply Q.le_max_r | exact Hle].
  - apply Q.le_min_r.
Qed.

Lemma py_int_nonneg (x : Q) : (0 <= x)%Q → 0 ≤ py_int x.
Proof.
  destruct x as [n d]. unfold Qle, py_int. simpl. intros H.
  apply Z.quot_pos; lia.
Qed.

Lemma py_int_le (x : Q) (n : Z) : (0 <= x)%Q → (x <= inject_Z n)%Q → py_int x ≤ n.
Proof.
  destruct x as [a d]. unfold Qle, py_int. simpl. intros H0 Hn.
  rewrite Z.quot_div_nonneg by lia.
  apply Z.div_le_upper_bound; lia.
Qed.

(** The fractional part left by [int] on a non-negative float. *)
Lemma py_int_frac (x : Q) :
  (0 <= x)%Q → (0 <= x - inject_Z (py_int x))%Q ∧ (x - inject_Z (py_int x) < 1)%Q.
Proof.
  destruct x as [a d]. unfold Qle, Qlt, Qminus, Qplus, Qopp, inject_Z, py_int. simpl.
  intros H0. rewrite Z.quot_div_nonneg by lia.
  pose proof (Z.mul_div_le a (Z.pos d) ltac:(lia)).
  pose proof (Z.mul_succ_div_gt a (Z.pos d) ltac:(lia)).
  split; nia.
Qed.

Lemma py_int_inject (x : Q) (z : Z) : (x == inject_Z z)%Q → py_int x = z.
Proof.
  destruct x as [a d]. unfold Qeq, py_int. simpl. intros H.
  assert (a = z * Z.pos d) as -> by lia.
  apply Z.quot_mul. lia.
Qed.

(** [norm_gt_tenth] is the test [sqrt (x * x + y * y) > 0.1] of
    [np.linalg.norm], read over the reals. *)
Lemma norm_gt_tenth_sqrt (v : vec) :
  norm_gt_tenth v = true ↔ (1 / 10 < sqrt (Q2R (norm2 v)))%R.
Proof.
  unfold norm_gt_tenth.
  rewrite negb_true_iff, <- not_true_iff_false, Qle_bool_iff.
  assert (Q2R (1 # 100) = (1 / 10) * (1 / 10))%R as Hc.
  { unfold Q2R. simpl. lra. }
  assert (sqrt (Q2R (1 # 100)) = 1 / 10)%R as Hs.
  { rewrite Hc. apply sqrt_square. lra. }
  split.
  - intros H. apply Qnot_le_lt, Qlt_Rlt in H. rewrite <- Hs.
    apply sqrt_lt_1_alt. split; [rewrite Hc; lra | exact H].
  - intros H Hle. rewrite <- Hs in H. apply sqrt_lt_0_alt in H.
    apply Qle_Rle in Hle. lra.
Qed.

(** ** The grid: lemmas *)

Lemma grid_at_valid (x y : Z) :
  valid_index x → valid_index y → ∃ label, grid_at x y = Some label ∧ label ≠ ""%string.
Proof.
  unfold valid_index. simpl. intros Hx Hy.
  assert (x = 0 ∨ x = 1 ∨ x = 2 ∨ x = 3 ∨ x = 4) as Hxs by lia.
  assert (y = 0 ∨ y = 1 ∨ y = 2 ∨ y = 3 ∨ y = 4) as Hys by lia.
  destruct Hxs as [-> | [-> | [-> | [-> | ->]]]];
    destruct Hys as [-> | [-> | [-> | [-> | ->]]]];
    (eexists; split; [reflexivity | discriminate]).
Qed.

Lemma move_in_bounds (d : vec) (p : Player) : in_bounds (position (move d p)).
Proof. split; simpl; apply np_clip_bounds; discriminate. Qed.

Lemma move_all_in_bounds (ds : list vec) (p : Player) :
  in_bounds (position p) → in_bounds (position (move_all ds p)).
Proof.
  unfold move_all. revert p. induction ds as [| d ds IH]; intros p Hp; simpl.
  - exact Hp.
  - apply IH, move_in_bounds.
Qed.

Lemma in_bounds_indices (pos : vec) :
  in_bounds pos →
  let x0 := py_int pos.1 in
  let y0 := py_int pos.2 in
  valid_index x0 ∧ valid_index y0 ∧
  valid_index (Z.min (x0 + 1) (grid_size.1 - 1)) ∧
  valid_index (Z.min (y0 + 1) (grid_size.2 - 1)).
Proof.
  intros [[Hx0 Hx1] [Hy0 Hy1]]. simpl.
  pose proof (py_int_nonneg _ Hx0). pose proof (py_int_nonneg _ Hy0).
  pose proof (py_int_le _ _ Hx0 Hx1). pose proof (py_int_le _ _ Hy0 Hy1).
  unfold valid_index. simpl in *. lia.
Qed.

Lemma interpolation_prompts_in_bounds (pos : vec) :
  in_bounds pos →
  ∃ p00 p10 p01 p11,
    grid_at (py_int pos.1) (py_int pos.2) = Some p00 ∧
    interpolation_prompts pos = Some [p00; p10; p01; p11] ∧
    Forall (λ s, s ≠ ""%string) [p00; p10; p01; p11].
Proof.
  intros Hb. destruct (in_bounds_indices pos Hb) as (Hx0 & Hy0 & Hx1 & Hy1).
  destruct (grid_at_valid _ _ Hx0 Hy0) as (p00 & E00 & N00).
  destruct (grid_at_valid _ _ Hx1 Hy0) as (p10 & E10 & N10).
  destruct (grid_at_valid _ _ Hx0 Hy1) as (p01 & E01 & N01).
  destruct (grid_at_valid _ _ Hx1 Hy1) as (p11 & E11 & N11).
  exists p00, p10, p01, p11. split; [exact E00 |]. split.
  - unfold interpolation_prompts. cbv zeta.
    rewrite E00. cbn [mbind option_bind]. rewrite E10. cbn [mbind option_bind].
    rewrite E01. cbn [mbind option_bind]. rewrite E11. reflexivity.
  - repeat constructor; assumption.
Qed.

(** ** Movement and orientation *)

(** C7. Starting inside the grid, after any sequence of [move] calls the
    position is inside [[0, width - 1] x [0, height - 1]], so the four indices
    [x0], [y0], [x1], [y1] that [generate_image] derives from it are valid
    indices of the 5 x 5 grid and the four label lookups raise no
    [IndexError]. *)
Theorem move_keeps_position_and_indices_valid (ds : list vec) (p : Player) :
  in_bounds (position p) →
  let pos := position (move_all ds p) in
  let x0 := py_int pos.1 in
  let y0 := py_int pos.2 in
  let x1 := Z.min (x0 + 1) (grid_size.1 - 1) in
  let y1 := Z.min (y0 + 1) (grid_size.2 - 1) in
  in_bounds pos ∧
  (valid_index x0 ∧ valid_index y0 ∧ valid_index x1 ∧ valid_index y1) ∧
  is_Some (interpolation_prompts pos).
Proof.
  intros Hp pos x0 y0 x1 y1.
  assert (in_bounds pos) as Hb by (apply move_all_in_bounds, Hp).
  split; [exact Hb |]. split.
  - apply (in_bounds_indices pos Hb).
  - destruct (interpolation_prompts_in_bounds pos Hb) as (? & ? & ? & ? & _ & -> & _).
    eexists; reflexivity.
Qed.

Lemma move_keeps_position_and_indices_valid_witness :
  let pos := position (move_all [(10, -10)%Q; (- (1 # 20), 0)%Q] (Player_init (5 # 2, 5 # 2)%Q)) in
  in_bounds pos ∧
  (valid_index (py_int pos.1) ∧ valid_index (py_int pos.2) ∧
   valid_index (Z.min (py_int pos.1 + 1) (grid_size.1 - 1)) ∧
   valid_index (Z.min (py_int pos.2 + 1) (grid_size.2 - 1))) ∧
  is_Some (interpolation_prompts pos).
Proof.
  apply (move_keeps_position_and_indices_valid
           [(10, -10)%Q; (- (1 # 20), 0)%Q] (Player_init (5 # 2, 5 # 2)%Q)).
  unfold in_bounds, Qle. simpl. lia.
Defined.

Lemma look_all_yaw (ds : list vec) (p : Player) :
  ((angle (look_all ds p)).1 == (angle p).1 + Qsum (ds.*1))%Q.
Proof.
  unfold look_all. revert p. induction ds as [| d ds IH]; intros p.
  - change ((angle p).1 == (angle p).1 + 0)%Q. ring.
  - change ((angle (foldl (λ q d0, look d0 q) (look d p) ds)).1
            == (angle p).1 + (d.1 + Qsum (ds.*1)))%Q.
    rewrite IH.
    change ((angle (look d p)).1) with ((angle p).1 + d.1)%Q. ring.
Qed.

(** C8. After every [look] call the pitch is within [[-90, 90]]; the yaw is
    never clamped and, after any sequence of calls, is the initial yaw plus
    the sum of the yaw deltas. *)
Theorem look_clamps_pitch_and_sums_yaw (ds : list vec) (d : vec) (p : Player) :
  (inject_Z (-90) <= (angle (look d (look_all ds p))).2 <= inject_Z 90)%Q ∧
  ((angle (look_all ds p)).1 == (angle p).1 + Qsum (ds.*1))%Q.
Proof.
  split.
  - simpl. apply np_clip_bounds. discriminate.
  - apply look_all_yaw.
Qed.

(** ** combine_prompts: lemmas *)

Lemma append_assoc (a b c : string) : ((a +:+ b) +:+ c = a +:+ (b +:+ c))%string.
Proof.
  induction a as [| ch a IH]; [reflexivity |].
  change (String ch ((a +:+ b) +:+ c) = String ch (a +:+ (b +:+ c)))%string.
  by rewrite IH.
Qed.

Lemma truthy_true (s : string) : truthy s = true ↔ s ≠ ""%string.
Proof. destruct s; simpl; split; intros; congruence. Qed.

Lemma truthy_append (a b : string) : truthy a = true → truthy (a +:+ b) = true.
Proof. by destruct a. Qed.

Lemma join_labels_snoc (done : list string) (l : string) :
  done ≠ [] → join_labels (done ++ [l]) = (join_labels done +:+ separator +:+ l)%string.
Proof.
  unfold join_labels. induction done as [| a [| b r] IH]; intros Hne.
  - congruence.
  - reflexivity.
  - change (String.concat separator ((a :: b :: r) ++ [l]))
      with (a +:+ separator +:+ String.concat separator ((b :: r) ++ [l]))%string.
    rewrite IH by discriminate.
    change (String.concat separator (a :: b :: r))
      with (a +:+ separator +:+ String.concat separator (b :: r))%string.
    by rewrite !append_assoc.
Qed.

Lemma truthy_join_labels (done : list string) :
  Forall (λ s, s ≠ ""%string) done → done ≠ [] → truthy (join_labels done) = true.
Proof.
  intros Hall Hne. destruct done as [| a r]; [congruence |].
  apply Forall_cons in Hall as [Ha _]. apply truthy_true in Ha.
  unfold join_labels. destruct r; simpl; [exact Ha | by apply truthy_append].
Qed.

(** The accumulator after one more label. *)
Lemma join_labels_step (done : list string) (l : string) :
  Forall (λ s, s ≠ ""%string) done →
  (if truthy (join_labels done) then (join_labels done +:+ separator +:+ l)%string else l)
  = join_labels (done ++ [l]).
Proof.
  intros Hall. destruct done as [| a r].
  - reflexivity.
  - rewrite truthy_join_labels by done. by rewrite join_labels_snoc.
Qed.

(** What the loop returns, the positive-weight labels being non-empty
    strings: the labels so far followed by the first [k] of the remaining
    ones, where [k] stops at the first prefix longer than [max_length]. *)
Lemma combine_loop_spec (token_length : string → nat) (max_length : Z)
    (pw : list (string * Q)) (done : list string) :
  Forall (λ s, s ≠ ""%string) done →
  Forall (λ s, s ≠ ""%string) (positive_labels pw) →
  ∃ k : nat,
    (k ≤ length (positive_labels pw))%nat ∧
    (positive_labels pw ≠ [] → (1 ≤ k)%nat) ∧
    combine_loop token_length max_length (join_labels done) pw
      = join_labels (done ++ take k (positive_labels pw)) ∧
    (∀ j : nat, (1 ≤ j < k)%nat →
       Z.of_nat (token_length (join_labels (done ++ take j (positive_labels pw)))) ≤ max_length) ∧
    ((k < length (positive_labels pw))%nat →
       max_length < Z.of_nat (token_length (join_labels (done ++ take k (positive_labels pw))))).
Proof.
  revert done. induction pw as [| [prompt weight] rest IH]; intros done Hdone Hpos.
  - exists 0%nat. simpl. rewrite app_nil_r. repeat split; try done; lia.
  - simpl in Hpos |- *. destruct (Qpositive weight) eqn:Hw.
    + apply Forall_cons in Hpos as [Hp Hrest].
      rewrite (join_labels_step done prompt Hdone).
      destruct (max_length <? Z.of_nat (token_length (join_labels (done ++ [prompt])))) eqn:Hlen.
      * apply Z.ltb_lt in Hlen. exists 1%nat. simpl. rewrite take_0.
        repeat split; try done; lia.
      * apply Z.ltb_ge in Hlen.
        destruct (IH (done ++ [prompt])) as (k & Hk & Hk1 & Heq & Hle & Hgt).
        { apply Forall_app. split; [done | by constructor]. }
        { done. }
        exists (S k). simpl.
        assert (∀ j, (done ++ [prompt]) ++ take j (positive_labels rest)
                     = done ++ prompt :: take j (positive_labels rest)) as Happ.
        { intros j. by rewrite <- app_assoc. }
        rewrite Happ in Heq, Hgt. repeat split.
        -- lia.
        -- lia.
        -- exact Heq.
        -- intros j Hj. destruct j as [| j]; [lia |]. simpl.
           destruct j as [| j].
           ++ by rewrite take_0.
           ++ rewrite <- Happ. apply Hle. lia.
        -- intros Hlt. apply Hgt. lia.
    + destruct (IH done Hdone Hpos) as (k & Hk & Hk1 & Heq & Hle & Hgt).
      exists k. repeat split; done.
Qed.

Lemma append_empty_r (a : string) : (a +:+ "")%string = a.
Proof.
  induction a as [| ch a IH]; [reflexivity |].
  change (String ch (a +:+ "") = String ch a)%string. by rewrite IH.
Qed.

Lemma join_labels_cons (a : string) (r : list string) :
  ∃ tail : string, join_labels (a :: r) = (a +:+ tail)%string.
Proof.
  destruct r as [| b r].
  - exists ""%string. by rewrite append_empty_r.
  - by exists (separator +:+ join_labels (b :: r))%string.
Qed.

Lemma positive_labels_nonempty (prompts : list string) (weights : list Q) :
  Forall (λ s, s ≠ ""%string) prompts →
  Forall (λ s, s ≠ ""%string) (positive_labels (zip prompts weights)).
Proof.
  intros Hall. revert weights.
  induction Hall as [| p ps Hp Hps IH]; intros [| w ws]; simpl; try constructor.
  destruct (Qpositive w); [constructor |]; auto.
Qed.

Lemma positive_labels_exists (prompts : list string) (weights : list Q)
    (i : nat) (p : string) (w : Q) :
  prompts !! i = Some p → weights !! i = Some w → (0 < w)%Q →
  positive_labels (zip prompts weights) ≠ [].
Proof.
  revert prompts weights. induction i as [| i IH];
    intros [| p' ps] [| w' ws] Hp Hw Hpos; simplify_eq/=.
  - apply Qpositive_true in Hpos. by rewrite Hpos.
  - destruct (Qpositive w'); [done | by eapply IH].
Qed.

(** With non-empty labels and some positive weight, the result starts with
    the first positive-weight label. *)
Lemma combine_prompts_starts_with_first (token_length : string → nat)
    (prompts : list string) (weights : list Q) (max_length : Z) :
  Forall (λ s, s ≠ ""%string) prompts →
  positive_labels (zip prompts weights) ≠ [] →
  ∃ first tail : string,
    head (positive_labels (zip prompts weights)) = Some first ∧
    combine_prompts token_length prompts weights max_length = (first +:+ tail)%string ∧
    combine_prompts token_length prompts weights max_length ≠ ""%string.
Proof.
  intros Hall Hne.
  pose proof (positive_labels_nonempty prompts weights Hall) as Hpos.
  destruct (combine_loop_spec token_length max_length (zip prompts weights) [])
    as (k & _ & Hk1 & Heq & _); [constructor | exact Hpos |].
  specialize (Hk1 Hne). unfold combine_prompts.
  change (join_labels []) with ""%string in Heq. rewrite Heq. simpl.
  destruct (positive_labels (zip prompts weights)) as [| first ls]; [congruence |].
  destruct k as [| k]; [lia |]. simpl.
  destruct (join_labels_cons first (take k ls)) as [tail Htail].
  exists first, tail. split; [reflexivity |]. split; [exact Htail |].
  rewrite Htail. apply Forall_cons in Hpos as [Hf _].
  destruct first; [congruence | discriminate].
Qed.

(** C1 (the code departs from the claim). [combine_prompts] appends a label
    and only then tests the token length, so the label whose inclusion
    pushes the request past [max_length] is kept in the result: with two
    positive-weight labels of which the first alone fits and both together
    do not, the request returned is both labels joined and its token length
    exceeds [max_length]. *)
Theorem combine_prompts_keeps_overflowing_label (token_length : string → nat)
    (p1 p2 : string) (w1 w2 : Q) (max_length : Z) :
  p1 ≠ ""%string → (0 < w1)%Q → (0 < w2)%Q →
  Z.of_nat (token_length p1) ≤ max_length →
  max_length < Z.of_nat (token_length (p1 +:+ separator +:+ p2)) →
  combine_prompts token_length [p1; p2] [w1; w2] max_length = (p1 +:+ separator +:+ p2)%string ∧
  max_length < Z.of_nat (token_length (combine_prompts token_length [p1; p2] [w1; w2] max_length)).
Proof.
  intros Hp1 Hw1 Hw2 Hfit Hover.
  apply Qpositive_true in Hw1, Hw2. apply truthy_true in Hp1.
  assert (combine_prompts token_length [p1; p2] [w1; w2] max_length
          = (p1 +:+ separator +:+ p2)%string) as Heq.
  { unfold combine_prompts. simpl. rewrite Hw1, Hw2, Hp1.
    destruct (max_length <? Z.of_nat (token_length p1)) eqn:E1;
      [apply Z.ltb_lt in E1; lia |].
    by destruct (max_length <? Z.of_nat (token_length (p1 +:+ separator +:+ p2))). }
  split; [exact Heq | by rewrite Heq].
Qed.

Lemma combine_prompts_keeps_overflowing_label_witness :
  combine_prompts word_tokens ["A dense forest"; "A snowy mountain"]%string [1 # 2; 1 # 2]%Q 5
    = "A dense forest | A snowy mountain"%string ∧
  5 < Z.of_nat (word_tokens
        (combine_prompts word_tokens ["A dense forest"; "A snowy mountain"]%string [1 # 2; 1 # 2]%Q 5)).
Proof.
  apply (combine_prompts_keeps_overflowing_label word_tokens
           "A dense forest" "A snowy mountain" (1 # 2) (1 # 2) 5).
  - discriminate.
  - reflexivity.
  - reflexivity.
  - vm_compute. discriminate.
  - vm_compute. reflexivity.
Defined.

(** ** The blend at corners, at centers and in general *)

Lemma py_int_unique (x : Q) (z : Z) :
  0 ≤ z → (inject_Z z <= x)%Q → (x < inject_Z (z + 1))%Q → py_int x = z.
Proof.
  destruct x as [a d]. unfold Qle, Qlt, py_int. simpl. intros Hz Hlo Hhi.
  rewrite Z.quot_div_nonneg by nia.
  symmetry. apply (Z.div_unique a (Z.pos d) z (a - Z.pos d * z)); lia.
Qed.

Lemma positive_labels_all (ls : list string) (ws : list Q) :
  length ls = length ws → Forall (λ w, (0 < w)%Q) ws →
  positive_labels (zip ls ws) = ls.
Proof.
  revert ws. induction ls as [| l ls IH]; intros [| w ws] Hlen Hpos; simplify_eq/=.
  - reflexivity.
  - apply Forall_cons in Hpos as [Hw Hws]. apply Qpositive_true in Hw.
    rewrite Hw. f_equal. by apply IH.
Qed.

Lemma interpolation_prompts_cell (pos : vec) (x0 y0 : Z) (l00 l10 l01 l11 : string) :
  py_int pos.1 = x0 → py_int pos.2 = y0 →
  grid_at x0 y0 = Some l00 →
  grid_at (Z.min (x0 + 1) (grid_size.1 - 1)) y0 = Some l10 →
  grid_at x0 (Z.min (y0 + 1) (grid_size.2 - 1)) = Some l01 →
  grid_at (Z.min (x0 + 1) (grid_size.1 - 1)) (Z.min (y0 + 1) (grid_size.2 - 1)) = Some l11 →
  interpolation_prompts pos = Some [l00; l10; l01; l11].
Proof.
  intros Hx Hy E00 E10 E01 E11. unfold interpolation_prompts. cbv zeta.
  rewrite Hx, Hy, E00. cbn [mbind option_bind]. rewrite E10. cbn [mbind option_bind].
  rewrite E01. cbn [mbind option_bind]. rewrite E11. reflexivity.
Qed.

Lemma corner_weights (tx ty : Q) :
  (tx == 0)%Q → (ty == 0)%Q →
  Qpositive ((1 - tx) * (1 - ty)) = true ∧ Qpositive (tx * (1 - ty)) = false ∧
  Qpositive ((1 - tx) * ty) = false ∧ Qpositive (tx * ty) = false.
Proof.
  intros Hx Hy. rewrite Qpositive_true, !Qpositive_false, Hx, Hy.
  repeat split; discriminate.
Qed.

Lemma center_weights (tx ty : Q) :
  (tx == 1 # 2)%Q → (ty == 1 # 2)%Q →
  Forall (λ w, (w == 1 # 4)%Q) [ (1 - tx) * (1 - ty); tx * (1 - ty); (1 - tx) * ty; tx * ty ]%Q.
Proof.
  intros Hx Hy. repeat constructor; rewrite Hx, Hy; reflexivity.
Qed.

Lemma first_weight_positive (tx ty : Q) :
  (tx < 1)%Q → (ty < 1)%Q → (0 < (1 - tx) * (1 - ty))%Q.
Proof.
  intros Hx Hy. apply Qlt_minus_iff in Hx, Hy.
  apply Qmult_lt_0_compat; assumption.
Qed.

(** At a corner only the first label has a positive weight. *)
Lemma combine_prompts_single (token_length : string → nat)
    (p0 p1 p2 p3 : string) (w0 w1 w2 w3 : Q) (max_length : Z) :
  Qpositive w0 = true → Qpositive w1 = false → Qpositive w2 = false → Qpositive w3 = false →
  combine_prompts token_length [p0; p1; p2; p3] [w0; w1; w2; w3] max_length = p0.
Proof.
  intros H0 H1 H2 H3. unfold combine_prompts. simpl. rewrite H0, H1, H2, H3.
  by destruct (max_length <? Z.of_nat (token_length p0)).
Qed.

(** C9. (1) At a grid corner ([tx = 0], [ty = 0]) the blended request is
    exactly the label of that cell.  (2) At the center of four cells the four
    bilinear weights all equal 0.25 and the request is the four labels joined
    by the separator in the order 00, 10, 01, 11, cut after the first [k] of
    them, where [k] is 4 unless an earlier prefix is longer than 77 tokens.
    (3) Whenever some weight is positive (the labels being non-empty, as all
    grid labels are) the result of [combine_prompts] is not the empty string
    and starts with the first positive-weight label; in particular the
    request blended at any position of the grid is non-empty and starts with
    the label of cell [(x0, y0)]. *)
Theorem blend_corner_center_nonempty (token_length : string → nat) :
  (∀ (pos : vec) (x0 y0 : Z),
     valid_index x0 → valid_index y0 →
     (pos.1 == inject_Z x0)%Q → (pos.2 == inject_Z y0)%Q →
     ∃ label : string,
       grid_at x0 y0 = Some label ∧
       combined_prompt_at token_length pos = Some label) ∧
  (∀ (pos : vec) (x0 y0 : Z),
     0 ≤ x0 < grid_size.1 - 1 → 0 ≤ y0 < grid_size.2 - 1 →
     (pos.1 == inject_Z x0 + (1 # 2))%Q → (pos.2 == inject_Z y0 + (1 # 2))%Q →
     Forall (λ w, (w == 1 # 4)%Q) (interpolation_weights pos) ∧
     ∃ (l00 l10 l01 l11 : string) (k : nat),
       grid_at x0 y0 = Some l00 ∧ grid_at (x0 + 1) y0 = Some l10 ∧
       grid_at x0 (y0 + 1) = Some l01 ∧ grid_at (x0 + 1) (y0 + 1) = Some l11 ∧
       (1 ≤ k ≤ 4)%nat ∧
       combined_prompt_at token_length pos
         = Some (join_labels (take k [l00; l10; l01; l11])) ∧
       (∀ j : nat, (1 ≤ j < k)%nat →
          Z.of_nat (token_length (join_labels (take j [l00; l10; l01; l11]))) ≤ 77) ∧
       ((k < 4)%nat →
          77 < Z.of_nat (token_length (join_labels (take k [l00; l10; l01; l11]))))) ∧
  (∀ (prompts : list string) (weights : list Q) (max_length : Z),
     Forall (λ s, s ≠ ""%string) prompts →
     (∃ (i : nat) (p : string) (w : Q),
        prompts !! i = Some p ∧ weights !! i = Some w ∧ (0 < w)%Q) →
     ∃ first tail : string,
       head (positive_labels (zip prompts weights)) = Some first ∧
       combine_prompts token_length prompts weights max_length = (first +:+ tail)%string ∧
       combine_prompts token_length prompts weights max_length ≠ ""%string) ∧
  (∀ pos : vec,
     in_bounds pos →
     ∃ l00 request tail : string,
       grid_at (py_int pos.1) (py_int pos.2) = Some l00 ∧
       combined_prompt_at token_length pos = Some request ∧
       request = (l00 +:+ tail)%string ∧ request ≠ ""%string).
Proof.
  split; [| split; [| split]].
  - intros pos x0 y0 Hx0 Hy0 Hx Hy.
    pose proof (py_int_inject _ _ Hx) as Px. pose proof (py_int_inject _ _ Hy) as Py.
    assert (in_bounds pos) as Hb.
    { unfold in_bounds. rewrite Hx, Hy. unfold valid_index in Hx0, Hy0.
      simpl in Hx0, Hy0. unfold Qle. simpl. lia. }
    destruct (interpolation_prompts_in_bounds pos Hb)
      as (p00 & p10 & p01 & p11 & E00 & Ep & _).
    rewrite Px, Py in E00. exists p00. split; [exact E00 |].
    unfold combined_prompt_at. rewrite Ep. cbn [mbind option_bind]. f_equal.
    unfold interpolation_weights. cbv zeta. rewrite Px, Py.
    destruct (corner_weights (pos.1 - inject_Z x0) (pos.2 - inject_Z y0))
      as (H0 & H1 & H2 & H3).
    { rewrite Hx. ring. }
    { rewrite Hy. ring. }
    by apply combine_prompts_single.
  - intros pos x0 y0 Hx0 Hy0 Hx Hy. simpl in Hx0, Hy0.
    assert (py_int pos.1 = x0) as Px.
    { apply py_int_unique; [lia | |]; rewrite Hx; [unfold Qle | unfold Qlt]; simpl; lia. }
    assert (py_int pos.2 = y0) as Py.
    { apply py_int_unique; [lia | |]; rewrite Hy; [unfold Qle | unfold Qlt]; simpl; lia. }
    assert (Forall (λ w, (w == 1 # 4)%Q) (interpolation_weights pos)) as Hws.
    { unfold interpolation_weights. cbv zeta. rewrite Px, Py.
      apply center_weights; [rewrite Hx | rewrite Hy]; ring. }
    split; [exact Hws |].
    destruct (grid_at_valid x0 y0) as (l00 & E00 & N00); [unfold valid_index; simpl; lia .. |].
    destruct (grid_at_valid (x0 + 1) y0) as (l10 & E10 & N10); [unfold valid_index; simpl; lia .. |].
    destruct (grid_at_valid x0 (y0 + 1)) as (l01 & E01 & N01); [unfold valid_index; simpl; lia .. |].
    destruct (grid_at_valid (x0 + 1) (y0 + 1)) as (l11 & E11 & N11);
      [unfold valid_index; simpl; lia .. |].
    assert (interpolation_prompts pos = Some [l00; l10; l01; l11]) as Ep.
    { apply (interpolation_prompts_cell pos x0 y0); try done;
        simpl; rewrite ?Z.min_l by lia; done. }
    assert (positive_labels (zip [l00; l10; l01; l11] (interpolation_weights pos))
            = [l00; l10; l01; l11]) as Hpl.
    { apply positive_labels_all; [reflexivity |].
      eapply Forall_impl; [exact Hws |]. intros w Hw. simpl in Hw. by rewrite Hw. }
    destruct (combine_loop_spec token_length 77
                (zip [l00; l10; l01; l11] (interpolation_weights pos)) [])
      as (k & Hk & Hk1 & Heq & Hle & Hgt).
    { constructor. }
    { rewrite Hpl. by repeat constructor. }
    rewrite Hpl in Hk, Hk1, Heq, Hle, Hgt.
    exists l00, l10, l01, l11, k. repeat split; try done.
    + apply Hk1. discriminate.
    + unfold combined_prompt_at. rewrite Ep. cbn [mbind option_bind]. f_equal. exact Heq.
  - intros prompts weights max_length Hall (i & p & w & Hp & Hw & Hpos).
    apply combine_prompts_starts_with_first; [exact Hall |].
    by eapply positive_labels_exists.
  - intros pos Hb.
    destruct (interpolation_prompts_in_bounds pos Hb)
      as (p00 & p10 & p01 & p11 & E00 & Ep & Hne).
    destruct Hb as [[Hx0 _] [Hy0 _]].
    destruct (py_int_frac _ Hx0) as [_ Hx1]. destruct (py_int_frac _ Hy0) as [_ Hy1].
    pose proof (first_weight_positive _ _ Hx1 Hy1) as Hw. apply Qpositive_true in Hw.
    assert (head (positive_labels (zip [p00; p10; p01; p11] (interpolation_weights pos)))
            = Some p00) as Hhd.
    { unfold interpolation_weights. cbv zeta. cbn [zip zip_with positive_labels].
      by rewrite Hw. }
    destruct (combine_prompts_starts_with_first token_length [p00; p10; p01; p11]
                (interpolation_weights pos) 77 Hne) as (first & tail & Hf & Heq & Hnon).
    { intros Hnil. by rewrite Hnil in Hhd. }
    rewrite Hhd in Hf. injection Hf as <-.
    exists p00, (combine_prompts token_length [p00; p10; p01; p11] (interpolation_weights pos) 77), tail.
    repeat split; try done.
    unfold combined_prompt_at. by rewrite Ep.
Qed.

(** ** generate_image on a cache hit *)

(** [generate_image] on a hit: the cached texture is shown and the flag
    cleared again. *)
Lemma generate_image_hit (token_length : string → nat) (w : World) (tex : Texture) :
  generating (player w) = false →
  image_cache w !! key_of (position (player w)) = Some tex →
  generate_image token_length w
  = Some (set_player
            (set_generating false
               (set_image (Some tex)
                  (set_cache_key (key_of (position (player w)))
                     (set_last_position (Some (position (player w)))
                        (set_generating true (player w)))))) w).
Proof.
  intros Hgen Hhit. unfold generate_image. rewrite Hgen. cbv zeta.
  change (cache_key (set_cache_key ?k _)) with k. by rewrite Hhit.
Qed.

(** C10 (as stated, it fails). In the loop of [main], with the keys
    [(25, 25)] and [(26, 25)] cached, texture 2 shown and a third production
    running, the player is back at [(2.5, 2.5)], whose key is cached with
    texture 1: [generate_image] returns at once and changes nothing, so the
    image is still texture 2, [generating] is still true and [last_position]
    is not the current position. *)
Lemma generate_image_ignored_while_generating :
  ∃ (w : World) (lp : vec),
    (w0 ← main_start word_tokens;
     run word_tokens (busy_revisit_run ++ [Move (- (1 # 20), 0)%Q]) w0) = Some w ∧
    image_cache w !! key_of (position (player w)) = Some 1%nat ∧
    generate_image word_tokens w = Some w ∧
    image (player w) = Some 2%nat ∧
    generating (player w) = true ∧
    last_position (player w) = Some lp ∧
    ¬ (lp.1 == (position (player w)).1)%Q.
Proof.
  eexists. eexists. split; [vm_compute; reflexivity |].
  split; [vm_compute; reflexivity |]. split; [vm_compute; reflexivity |].
  split; [reflexivity |]. split; [reflexivity |]. split; [reflexivity |].
  intros H. vm_compute in H. discriminate.
Qed.

(** C10 (amended). At a position whose key is in the cache: called while
    [generating] is false, [generate_image] shows the cached texture and
    returns, starting no thread and putting nothing on the queue, leaving the
    cache unchanged and [generating] false, with [last_position] (and
    [cache_key]) updated to the current position; called while [generating]
    is true, it returns at once and changes nothing. *)
Theorem generate_image_cached (token_length : string → nat) (w : World) (tex : Texture) :
  image_cache w !! key_of (position (player w)) = Some tex →
  (generating (player w) = false →
   ∃ w' : World,
     generate_image token_length w = Some w' ∧
     image (player w') = Some tex ∧
     generating (player w') = false ∧
     last_position (player w') = Some (position (player w)) ∧
     cache_key (player w') = key_of (position (player w)) ∧
     threads w' = threads w ∧
     image_queue (player w') = image_queue (player w) ∧
     image_cache w' = image_cache w ∧
     position (player w') = position (player w)) ∧
  (generating (player w) = true → generate_image token_length w = Some w).
Proof.
  intros Hhit. split.
  - intros Hgen. eexists. split; [by apply generate_image_hit |].
    repeat split.
  - intros Hgen. unfold generate_image. by rewrite Hgen.
Qed.

Lemma generate_image_cached_witness :
  ∃ w' : World,
    generate_image word_tokens
      (set_image_cache {[ Some (25, 25) := 1%nat ]} (new_world (Player_init (5 # 2, 5 # 2)%Q)))
      = Some w' ∧
    image (player w') = Some 1%nat ∧
    generating (player w') = false ∧
    last_position (player w') = Some (5 # 2, 5 # 2)%Q ∧
    cache_key (player w') = key_of (5 # 2, 5 # 2)%Q ∧
    threads w' = [] ∧
    image_queue (player w') = [] ∧
    image_cache w' = {[ Some (25, 25) := 1%nat ]} ∧
    position (player w') = (5 # 2, 5 # 2)%Q.
Proof.
  assert (image_cache
            (set_image_cache {[ Some (25, 25) := 1%nat ]} (new_world (Player_init (5 # 2, 5 # 2)%Q)))
            !! key_of (5 # 2, 5 # 2)%Q = Some 1%nat) as Hhit by (vm_compute; reflexivity).
  exact (proj1 (generate_image_cached word_tokens
                  (set_image_cache {[ Some (25, 25) := 1%nat ]}
                     (new_world (Player_init (5 # 2, 5 # 2)%Q)))
                  1%nat Hhit) eq_refl).
Defined.

(** ** process_generated_image *)

(** C2 (as stated, it fails). With two results on the queue, one call of
    [process_generated_image] takes the first and leaves the second on the
    queue, its key still absent from the cache. *)
Lemma process_generated_image_leaves_second_result :
  ∃ w : World,
    (w0 ← main_start word_tokens; run word_tokens two_results_run w0) = Some w ∧
    image_queue (player w) = [(Some (25, 25), 7%nat); (Some (26, 25), 8%nat)] ∧
    image_queue (player (process_generated_image w)) = [(Some (26, 25), 8%nat)] ∧
    image_cache (process_generated_image w) !! Some (25, 25) = Some 1%nat ∧
    image_cache (process_generated_image w) !! Some (26, 25) = None.
Proof.
  eexists. split; [vm_compute; reflexivity |].
  repeat split; vm_compute; reflexivity.
Qed.

(** C2 (amended). One call of [process_generated_image] never blocks: on an
    empty queue it changes nothing; otherwise it takes exactly one entry, the
    oldest, creates a texture from its image, stores that texture in the
    cache under the entry's key and makes it the current image; the other
    entries stay on the queue. *)
Theorem process_generated_image_pops_one (w : World) :
  match image_queue (player w) with
  | [] => process_generated_image w = w
  | (key, img) :: rest =>
      image_queue (player (process_generated_image w)) = rest ∧
      image_cache (process_generated_image w)
        = <[key := S (length (gl_textures w))]> (image_cache w) ∧
      image (player (process_generated_image w)) = Some (S (length (gl_textures w))) ∧
      gl_textures (process_generated_image w) = gl_textures w ++ [img] ∧
      threads (process_generated_image w) = threads w ∧
      generating (player (process_generated_image w)) = generating (player w)
  end.
Proof.
  unfold process_generated_image.
  destruct (image_queue (player w)) as [| [key img] rest]; [reflexivity |].
  repeat split.
Qed.

(** ** The worker thread *)

Lemma delete_insert_same {A : Type} (l : list A) (i : nat) (x : A) :
  delete i (<[i := x]> l) = delete i l.
Proof.
  revert i. induction l as [| a l IH]; intros [| i]; simpl; try reflexivity.
  f_equal. apply IH.
Qed.

(** What a whole run of [run_generation] does to the world. *)
Lemma run_generation_spec (i : nat) (result : Image + string) (w : World) (t : Worker) :
  threads w !! i = Some t → pc t = Producing →
  run_generation i result w
  = Some (set_threads (delete i (threads w))
            (set_player (set_generating false
               (match result with
                | inl high_res =>
                    set_image_queue (image_queue (player w) ++ [(cache_key (player w), high_res)])
                      (player w)
                | inr _ => player w
                end))
               (match result with
                | inl _ => w
                | inr e => set_stdout (stdout w ++ [("Error during image generation: " +:+ e)%string]) w
                end))).
Proof.
  intros Ht Hpc. unfold run_generation, thread_produce. rewrite Ht. cbn [mbind option_bind].
  rewrite Hpc.
  assert (<[i := mkWorker (combined_prompt t) Finishing]> (threads w) !! i
          = Some (mkWorker (combined_prompt t) Finishing)) as Hi.
  { apply list_lookup_insert_eq. by eapply lookup_lt_Some. }
  destruct result as [high_res | e]; cbn [mbind option_bind];
    unfold thread_finally; cbn [threads set_threads set_player set_stdout];
    rewrite Hi; cbn [mbind option_bind pc]; by rewrite delete_insert_same.
Qed.

(** C3 (as stated, it fails). The worker thread itself writes a field of the
    player: after the first [generate_image] of [main] the flag [generating]
    is set, and a run of [run_generation] clears it. *)
Lemma run_generation_clears_generating :
  ∃ w w' : World,
    main_start word_tokens = Some w ∧
    run_generation 0 (inl 7%nat) w = Some w' ∧
    generating (player w) = true ∧
    generating (player w') = false.
Proof.
  eexists. eexists. split; [vm_compute; reflexivity |].
  split; [vm_compute; reflexivity |]. split; reflexivity.
Qed.

(** C3 (amended). A run of the worker thread has these effects and no other:
    on success one entry [(cache_key, image)] is put on the queue, on failure
    one line is printed; in both cases the thread itself clears the player's
    [generating] flag in its [finally] clause, and it ends.  Position,
    orientation, current image, [last_position], [cache_key], the cache and
    the textures are left as they were. *)
Theorem run_generation_effects (i : nat) (result : Image + string) (w : World) (t : Worker) :
  threads w !! i = Some t → pc t = Producing →
  ∃ w' : World,
    run_generation i result w = Some w' ∧
    generating (player w') = false ∧
    position (player w') = position (player w) ∧
    angle (player w') = angle (player w) ∧
    image (player w') = image (player w) ∧
    last_position (player w') = last_position (player w) ∧
    cache_key (player w') = cache_key (player w) ∧
    image_cache w' = image_cache w ∧
    gl_textures w' = gl_textures w ∧
    threads w' = delete i (threads w) ∧
    match result with
    | inl high_res =>
        image_queue (player w') = image_queue (player w) ++ [(cache_key (player w), high_res)] ∧
        stdout w' = stdout w
    | inr e =>
        image_queue (player w') = image_queue (player w) ∧
        stdout w' = stdout w ++ [("Error during image generation: " +:+ e)%string]
    end.
Proof.
  intros Ht Hpc. eexists. split; [by apply (run_generation_spec i result w t) |].
  destruct result; repeat split.
Qed.

Lemma run_generation_effects_witness :
  ∃ w' : World,
    run_generation 0 (inr "out of memory"%string)
      (spawn (mkWorker "A dense forest" Producing)
         (new_world (set_generating true (Player_init (5 # 2, 5 # 2)%Q)))) = Some w' ∧
    generating (player w') = false ∧
    threads w' = [] ∧
    image_queue (player w') = [] ∧
    stdout w' = ["Error during image generation: out of memory"%string].
Proof.
  destruct (run_generation_effects 0 (inr "out of memory"%string)
              (spawn (mkWorker "A dense forest" Producing)
                 (new_world (set_generating true (Player_init (5 # 2, 5 # 2)%Q))))
              (mkWorker "A dense forest" Producing) eq_refl eq_refl)
    as (w' & Hrun & Hgen & _ & _ & _ & _ & _ & _ & _ & Hth & Hq & Hout).
  exists w'. repeat split; assumption.
Defined.

(** ** A failed production *)

(** [generate_image] on a miss, inside the grid: a worker is started. *)
Lemma generate_image_miss (token_length : string → nat) (w : World) :
  generating (player w) = false →
  image_cache w !! key_of (position (player w)) = None →
  in_bounds (position (player w)) →
  ∃ prompt : string,
    combined_prompt_at token_length (position (player w)) = Some prompt ∧
    generate_image token_length w
    = Some (spawn (mkWorker prompt Producing)
              (set_player
                 (set_cache_key (key_of (position (player w)))
                    (set_last_position (Some (position (player w)))
                       (set_generating true (player w)))) w)).
Proof.
  intros Hgen Hmiss Hb.
  destruct (interpolation_prompts_in_bounds _ Hb) as (p00 & p10 & p01 & p11 & _ & Ep & _).
  eexists. split.
  - unfold combined_prompt_at. rewrite Ep. reflexivity.
  - unfold generate_image. rewrite Hgen. cbv zeta.
    change (cache_key (set_cache_key ?k _)) with k. rewrite Hmiss.
    change (position (set_cache_key _ (set_last_position _ (set_generating _ ?p))))
      with (position p).
    unfold combined_prompt_at. rewrite Ep. reflexivity.
Qed.




(** ** The regeneration decision *)

Lemma moved_significantly_spec (p : Player) :
  moved_significantly p = true ↔ significant_move p.
Proof.
  unfold moved_significantly, significant_move.
  destruct (last_position p) as [lp |].
  - unfold norm_gt_tenth.
    rewrite negb_true_iff, <- not_true_iff_false, Qle_bool_iff. split.
    + intros H. right. exists lp. split; [reflexivity | by apply Qnot_le_lt].
    + intros [? | (lp' & [= <-] & H)]; [done | by apply Qlt_not_le].
  - split; [by left | done].
Qed.

(** C5 (as stated, it fails). In the loop of [main], after the keys
    [(25, 25)] and [(26, 25)] have both been cached and the last request was
    made at [(2.5, 2.5)], the player steps to [(2.65, 2.5)]: [generating] is
    false and the player is further than 0.1 from [last_position], yet the
    decision starts no production (the key is cached). *)
Lemma regeneration_skipped_on_cached_key :
  ∃ w w' : World,
    (w0 ← main_start word_tokens;
     run word_tokens (revisit_run ++ [Move (1 # 20, 0)%Q]) w0) = Some w ∧
    generating (player w) = false ∧
    significant_move (player w) ∧
    maybe_regenerate word_tokens w = Some w' ∧
    threads w' = threads w ∧
    threads w = [].
Proof.
  eexists. eexists. split; [vm_compute; reflexivity |].
  split; [reflexivity |]. split.
  - right. eexists. split; [reflexivity |]. vm_compute. reflexivity.
  - split; [vm_compute; reflexivity |]. split; reflexivity.
Qed.

(** C5 (amended). The decision does nothing while [generating] is true.
    Otherwise, at a position of the grid, it starts a new production exactly
    when [last_position] is unset or further than 0.1 from the position AND
    the key of the position is not in the cache; without a significant move
    nothing changes, and with one at a cached key the cached image is shown
    and no production starts.  With the last request made at [(2.5, 2.5)]:
    at [(2.55, 2.5)] nothing is requested; at [(2.65, 2.5)], [generating]
    being false and the key [(26, 25)] not being cached, one production is
    started. *)
Theorem regeneration_decision (token_length : string → nat) :
  (∀ w : World,
     generating (player w) = true → maybe_regenerate token_length w = Some w) ∧
  (∀ w : World,
     generating (player w) = false → in_bounds (position (player w)) →
     ∃ w' : World,
       maybe_regenerate token_length w = Some w' ∧
       (length (threads w') = S (length (threads w)) ↔
          significant_move (player w) ∧
          image_cache w !! key_of (position (player w)) = None) ∧
       (¬ significant_move (player w) → w' = w) ∧
       (∀ tex : Texture,
          significant_move (player w) →
          image_cache w !! key_of (position (player w)) = Some tex →
          threads w' = threads w ∧ image (player w') = Some tex ∧
          generating (player w') = false)) ∧
  (∀ w : World,
     last_position (player w) = Some (5 # 2, 5 # 2)%Q →
     ((position (player w)).1 == 51 # 20)%Q → ((position (player w)).2 == 5 # 2)%Q →
     maybe_regenerate token_length w = Some w) ∧
  (∀ w : World,
     generating (player w) = false →
     last_position (player w) = Some (5 # 2, 5 # 2)%Q →
     ((position (player w)).1 == 53 # 20)%Q → ((position (player w)).2 == 5 # 2)%Q →
     image_cache w !! Some (26, 25) = None →
     ∃ w' : World,
       maybe_regenerate token_length w = Some w' ∧
       length (threads w') = S (length (threads w)) ∧
       generating (player w') = true ∧
       cache_key (player w') = Some (26, 25)).
Proof.
  split; [| split; [| split]].
  - intros w Hgen. unfold maybe_regenerate, generate_image. rewrite Hgen.
    by destruct (moved_significantly (player w)).
  - intros w Hgen Hb. unfold maybe_regenerate.
    destruct (moved_significantly (player w)) eqn:Hm.
    + apply moved_significantly_spec in Hm.
      destruct (image_cache w !! key_of (position (player w))) as [tex |] eqn:Hc.
      * eexists. split; [exact (generate_image_hit token_length w tex Hgen Hc) |].
        cbn [threads player image generating set_player set_generating set_image].
        split; [| split].
        -- split; [lia | by intros [_ ?]].
        -- done.
        -- intros tex' _ [= <-]. done.
      * destruct (generate_image_miss token_length w Hgen Hc Hb) as (prompt & _ & Hgi).
        eexists. split; [exact Hgi |]. split; [| split].
        -- cbn [threads spawn set_threads set_player]. rewrite length_app. simpl.
           split; [done | lia].
        -- done.
        -- intros tex _ [=].
    + assert (¬ significant_move (player w)) as Hn.
      { rewrite <- moved_significantly_spec. by rewrite Hm. }
      exists w. split; [reflexivity |]. split; [| split].
      * split; [lia | by intros [? _]].
      * done.
      * done.
  - intros w Hlast Hx Hy. unfold maybe_regenerate.
    assert (moved_significantly (player w) = false) as ->; [| reflexivity].
    unfold moved_significantly. rewrite Hlast. unfold norm_gt_tenth.
    rewrite negb_false_iff, Qle_bool_iff. unfold norm2, vsub. cbn [fst snd].
    rewrite Hx, Hy. discriminate.
  - intros w Hgen Hlast Hx Hy Hmiss.
    assert (key_of (position (player w)) = Some (26, 25)) as Hkey.
    { unfold key_of. f_equal. f_equal.
      - apply py_int_unique; [lia | |]; rewrite Hx; discriminate || reflexivity.
      - apply py_int_inject. rewrite Hy. reflexivity. }
    assert (in_bounds (position (player w))) as Hb.
    { unfold in_bounds. rewrite Hx, Hy. repeat split; discriminate. }
    assert (moved_significantly (player w) = true) as Hm.
    { unfold moved_significantly. rewrite Hlast. unfold norm_gt_tenth.
      rewrite negb_true_iff, <- not_true_iff_false, Qle_bool_iff.
      unfold norm2, vsub. cbn [fst snd]. rewrite Hx, Hy. intros H. by apply H. }
    rewrite <- Hkey in Hmiss.
    destruct (generate_image_miss token_length w Hgen Hmiss Hb) as (prompt & _ & Hgi).
    unfold maybe_regenerate. rewrite Hm. eexists. split; [exact Hgi |].
    cbn [threads spawn set_threads set_player]. rewrite length_app. simpl.
    repeat split; [lia | exact Hkey].
Qed.

(** ** The cache along a run *)

(** What [generate_image] leaves alone. *)
Lemma generate_image_frame (token_length : string → nat) (w w' : World) :
  generate_image token_length w = Some w' →
  image_cache w' = image_cache w ∧
  image_queue (player w') = image_queue (player w) ∧
  gl_textures w' = gl_textures w.
Proof.
  unfold generate_image. destruct (generating (player w)); [by intros [= <-] |].
  cbv zeta. destruct (image_cache w !! _); [by intros [= <-] |].
  destruct (combined_prompt_at token_length _); [| done].
  by intros [= <-].
Qed.

Lemma handle_movement_frame (token_length : string → nat) (i : Input) (w w' : World) :
  handle_movement token_length i w = Some w' →
  image_cache w' = image_cache w ∧
  image_queue (player w') = image_queue (player w) ∧
  gl_textures w' = gl_textures w.
Proof.
  unfold handle_movement, maybe_regenerate.
  destruct (np_any (key_direction i)); [| by intros [= <-]].
  cbv zeta. destruct (moved_significantly _); [| by intros [= <-]].
  intros H. apply generate_image_frame in H. exact H.
Qed.

(** One poll either leaves the cache alone or writes the key it took. *)
Lemma process_generated_image_cache (w : World) :
  image_cache (process_generated_image w) = image_cache w ∨
  ∃ (key : CacheKey) (img : Image) (rest : list (CacheKey * Image)),
    image_queue (player w) = (key, img) :: rest ∧
    image_cache (process_generated_image w)
      = <[key := S (length (gl_textures w))]> (image_cache w).
Proof.
  unfold process_generated_image.
  destruct (image_queue (player w)) as [| [key img] rest]; [by left |].
  right. by exists key, img, rest.
Qed.

Lemma step_cache (token_length : string → nat) (o : op) (w w' : World) :
  step token_length o w = Some w' →
  image_cache w' = image_cache w ∨
  ∃ (key : CacheKey) (img : Image) (rest : list (CacheKey * Image)),
    image_queue (player w) = (key, img) :: rest ∧
    image_cache w' = <[key := S (length (gl_textures w))]> (image_cache w).
Proof.
  destruct o as [d | d | | | i | i result | i]; simpl.
  - intros [= <-]. by left.
  - intros [= <-]. by left.
  - intros H. left. by apply generate_image_frame in H as (Hc & _).
  - intros [= <-]. apply process_generated_image_cache.
  - unfold frame. destruct (handle_movement token_length i w) as [w1 |] eqn:Hm; [| done].
    cbn [mbind option_bind]. intros [= <-].
    apply handle_movement_frame in Hm as (Hc & Hq & Hg).
    destruct (process_generated_image_cache
                (set_player (look (inject_Z (mouse_rel i).1 * mouse_sensitivity,
                                   inject_Z (mouse_rel i).2 * mouse_sensitivity)%Q (player w1)) w1))
      as [Hsame | (key & img & rest & Hqueue & Hins)].
    + left. rewrite Hsame. exact Hc.
    + right. exists key, img, rest. split.
      * rewrite <- Hq. exact Hqueue.
      * rewrite Hins. cbn [image_cache gl_textures set_player]. by rewrite Hc, Hg.
  - unfold thread_produce. destruct (threads w !! i) as [t |]; [| done].
    cbn [mbind option_bind]. destruct (pc t); [| done].
    destruct result; intros [= <-]; by left.
  - unfold thread_finally. destruct (threads w !! i) as [t |]; [| done].
    cbn [mbind option_bind]. destruct (pc t); [done |].
    intros [= <-]. by left.
Qed.

Lemma run_keeps_keys (token_length : string → nat) (os : list op) (w w' : World)
    (K : CacheKey) :
  run token_length os w = Some w' →
  is_Some (image_cache w !! K) → is_Some (image_cache w' !! K).
Proof.
  revert w. induction os as [| o os IH]; intros w; simpl.
  - by intros [= <-].
  - destruct (step token_length o w) as [w1 |] eqn:Hs; [| done].
    cbn [mbind option_bind]. intros Hrun HK. apply (IH w1 Hrun).
    destruct (step_cache token_length o w w1 Hs) as [-> | (key & img & rest & _ & ->)];
      [exact HK |].
    destruct (decide (key = K)) as [-> | Hne].
    + rewrite lookup_insert_eq. by eexists.
    + by rewrite lookup_insert_ne.
Qed.

(** C6 (as stated, it fails). In the loop of [main], two productions for the
    key [(25, 25)] complete one after the other; the first poll stores
    texture 1 under the key, a later poll overwrites it with texture 2. *)
Lemma cache_entry_overwritten :
  ∃ w1 w2 : World,
    (w0 ← main_start word_tokens; run word_tokens overwrite_run_1 w0) = Some w1 ∧
    run word_tokens overwrite_run_2 w1 = Some w2 ∧
    image_cache w1 !! Some (25, 25) = Some 1%nat ∧
    image_cache w2 !! Some (25, 25) = Some 2%nat.
Proof.
  eexists. eexists. split; [vm_compute; reflexivity |].
  split; [vm_compute; reflexivity |]. split; vm_compute; reflexivity.
Qed.

(** C6 (amended). Once a key is in the cache it is never evicted: after any
    run (method calls, frames, worker steps) a lookup of the key still
    returns a texture.  A step changes the cache only by storing, under the
    key of the queue entry it polls, the texture created for that entry; so
    the texture of a key stays the same until a later result for the same
    key is polled, which replaces it. *)
Theorem cache_entries_never_evicted (token_length : string → nat) :
  (∀ (os : list op) (w w' : World) (K : CacheKey) (a : Texture),
     run token_length os w = Some w' →
     image_cache w !! K = Some a →
     is_Some (image_cache w' !! K)) ∧
  (∀ (o : op) (w w' : World),
     step token_length o w = Some w' →
     image_cache w' = image_cache w ∨
     ∃ (key : CacheKey) (img : Image) (rest : list (CacheKey * Image)),
       image_queue (player w) = (key, img) :: rest ∧
       image_cache w' = <[key := S (length (gl_textures w))]> (image_cache w)).
Proof.
  split.
  - intros os w w' K a Hrun HK. apply (run_keeps_keys token_length os w w' K Hrun).
    by eexists.
  - apply step_cache.
Qed.

(** ** Instances of the conditional statements *)

Lemma blend_corner_center_nonempty_witness :
  ∃ label : string,
    grid_at 2 3 = Some label ∧
    combined_prompt_at word_tokens (inject_Z 2, inject_Z 3) = Some label.
Proof.
  apply (proj1 (blend_corner_center_nonempty word_tokens) (inject_Z 2, inject_Z 3) 2 3).
  - unfold valid_index. simpl. lia.
  - unfold valid_index. simpl. lia.
  - reflexivity.
  - reflexivity.
Defined.

Lemma regeneration_decision_witness :
  ∃ w' : World,
    maybe_regenerate word_tokens
      (new_world (set_last_position (Some (5 # 2, 5 # 2)%Q) (Player_init (53 # 20, 5 # 2)%Q)))
      = Some w' ∧
    length (threads w') = 1%nat ∧
    generating (player w') = true ∧
    cache_key (player w') = Some (26, 25).
Proof.
  apply (proj2 (proj2 (proj2 (regeneration_decision word_tokens)))
           (new_world (set_last_position (Some (5 # 2, 5 # 2)%Q) (Player_init (53 # 20, 5 # 2)%Q)))).
  - reflexivity.
  - reflexivity.
  - reflexivity.
  - reflexivity.
  - vm_compute. reflexivity.
Defined.

Lemma cache_entries_never_evicted_witness :
  ∃ w' : World,
    run word_tokens [Move (3 # 20, 0)%Q; GenerateImage; ThreadProduce 0 (inl 8%nat);
                     ThreadFinally 0; ProcessGeneratedImage]
      (set_image_cache {[ Some (25, 25) := 1%nat ]} (new_world (Player_init (5 # 2, 5 # 2)%Q)))
      = Some w' ∧
    is_Some (image_cache w' !! Some (25, 25)).
Proof.
  destruct (run word_tokens [Move (3 # 20, 0)%Q; GenerateImage; ThreadProduce 0 (inl 8%nat);
                             ThreadFinally 0; ProcessGeneratedImage]
              (set_image_cache {[ Some (25, 25) := 1%nat ]}
                 (new_world (Player_init (5 # 2, 5 # 2)%Q)))) as [w' |] eqn:Hrun.
  - exists w'. split; [reflexivity |].
    apply (proj1 (cache_entries_never_evicted word_tokens) _ _ w' (Some (25, 25)) 1%nat Hrun).
    vm_compute. reflexivity.
  - vm_compute in Hrun. discriminate.
Defined.

(** ** Invariants of an execution *)

Lemma key_of_valid (pos : vec) : in_bounds pos → valid_key (key_of pos).
Proof.
  intros [[Hx0 Hx1] [Hy0 Hy1]]. unfold key_of, valid_key. eexists _, _.
  split; [reflexivity |].
  assert (∀ x : Q, (0 <= x)%Q → (x <= inject_Z 4)%Q →
                   0 ≤ py_int (x * 10) ≤ 40) as Hbound.
  { intros x H0 H4. split.
    - apply py_int_nonneg. by apply Qmult_le_0_compat.
    - apply py_int_le; [by apply Qmult_le_0_compat |].
      change (inject_Z 40) with (inject_Z 4 * 10)%Q.
      by apply Qmult_le_compat_r. }
  simpl in *. split; by apply Hbound.
Qed.

Lemma world_inv_init (pos : vec) : in_bounds pos → world_inv (new_world (Player_init pos)).
Proof.
  intros Hb. split; simpl; try done. lia.
Qed.

Lemma world_inv_set_position (pos : vec) (w : World) :
  in_bounds pos → world_inv w → world_inv (set_player (set_position pos (player w)) w).
Proof. intros Hb [? ? ? ? ? ? ? ? ? ? ?]. by split. Qed.

Lemma world_inv_set_angle (a : vec) (w : World) :
  world_inv w → world_inv (set_player (set_angle a (player w)) w).
Proof. intros [? ? ? ? ? ? ? ? ? ? ?]. by split. Qed.

Lemma world_inv_generate_image (token_length : string → nat) (w w' : World) :
  world_inv w → generate_image token_length w = Some w' → world_inv w'.
Proof.
  intros Hinv. pose proof Hinv as [Hpos Hth Hgen Hkey Hlast Hreq Hq Hck Hct Hci Him].
  unfold generate_image. destruct (generating (player w)) eqn:Hg; [by intros [= <-] |].
  assert (threads w = []) as Hnil.
  { destruct (threads w) as [| t ts] eqn:E; [done |].
    assert (false = true) as Habs by (apply Hgen; done). discriminate. }
  cbv zeta. change (cache_key (set_cache_key ?k _)) with k.
  destruct (image_cache w !! key_of (position (player w))) as [tex |] eqn:Hc.
  - intros [= <-]. split; simpl; try done.
    + by intros ? [= <-].
    + intros t [= <-]. by eexists.
  - destruct (combined_prompt_at token_length _) as [prompt |]; [| done].
    cbn [mbind option_bind]. intros [= <-]. split; simpl; try done.
    + by rewrite Hnil.
    + rewrite Hnil. split; done.
    + by intros ? [= <-].
Qed.

Lemma world_inv_process_generated_image (w : World) :
  world_inv w → world_inv (process_generated_image w).
Proof.
  intros Hinv. pose proof Hinv as [Hpos Hth Hgen Hkey Hlast Hreq Hq Hck Hct Hci Him].
  unfold process_generated_image.
  destruct (image_queue (player w)) as [| [key img] rest] eqn:Hqueue; [done |].
  apply Forall_cons in Hq as [Hkeyv Hrest]. simpl in Hkeyv.
  split; simpl; try done.
  - intros k t. rewrite lookup_insert. case_decide as Hk; [by intros _; subst | by apply Hck].
  - intros k t. rewrite lookup_insert, length_app. simpl.
    case_decide as Hk; [intros [= <-]; lia |].
    intros H. apply Hct in H. lia.
  - intros k1 k2 t. rewrite !lookup_insert.
    case_decide as H1; case_decide as H2; try congruence.
    + intros [= <-] H. apply Hct in H. lia.
    + intros H [= <-]. apply Hct in H. lia.
    + apply Hci.
  - intros t [= <-]. exists key. by rewrite lookup_insert_eq.
Qed.

Lemma world_inv_thread_produce (i : nat) (result : Image + string) (w w' : World) :
  world_inv w → thread_produce i result w = Some w' → world_inv w'.
Proof.
  intros Hinv. pose proof Hinv as [Hpos Hth Hgen Hkey Hlast Hreq Hq Hck Hct Hci Him].
  unfold thread_produce. destruct (threads w !! i) as [t |] eqn:Ht; [| done].
  cbn [mbind option_bind]. destruct (pc t); [| done].
  assert (threads w ≠ []) as Hne by (intros E; by rewrite E in Ht).
  assert (∀ x : Worker, <[i := x]> (threads w) ≠ []) as Hne'.
  { intros x E. apply (f_equal length) in E. rewrite length_insert in E.
    by destruct (threads w). }
  destruct result as [high_res | e]; intros [= <-]; split; simpl;
    rewrite ?length_insert; try done;
    try (split; [intros _; apply Hne' | intros _; by apply Hgen]);
    try (intros _; by apply Hreq).
  apply Forall_app. split; [done |]. constructor; [| constructor]. simpl.
  destruct (Hreq Hne) as [lp Hlp]. rewrite Hkey, Hlp. simpl.
  apply key_of_valid. by apply Hlast.
Qed.

Lemma world_inv_thread_finally (i : nat) (w w' : World) :
  world_inv w → thread_finally i w = Some w' → world_inv w'.
Proof.
  intros Hinv. pose proof Hinv as [Hpos Hth Hgen Hkey Hlast Hreq Hq Hck Hct Hci Him].
  unfold thread_finally. destruct (threads w !! i) as [t |] eqn:Ht; [| done].
  cbn [mbind option_bind]. destruct (pc t); [done |].
  assert (delete i (threads w) = []) as Hdel.
  { destruct (threads w) as [| t0 [| t1 ts]]; simpl in *; [done | | lia].
    by destruct i. }
  intros [= <-]. split; simpl; rewrite ?Hdel; try done.
  simpl. lia.
Qed.

Lemma world_inv_handle_movement (token_length : string → nat) (i : Input) (w w' : World) :
  world_inv w → handle_movement token_length i w = Some w' → world_inv w'.
Proof.
  intros Hinv. unfold handle_movement, maybe_regenerate.
  destruct (np_any (key_direction i)); [| by intros [= <-]].
  cbv zeta. set (w1 := set_player (move _ (player w)) w).
  assert (world_inv w1) as Hinv1.
  { apply world_inv_set_position; [apply move_in_bounds | done]. }
  destruct (moved_significantly (player w1)); [| by intros [= <-]].
  by apply world_inv_generate_image.
Qed.

Lemma world_inv_step (token_length : string → nat) (o : op) (w w' : World) :
  world_inv w → step token_length o w = Some w' → world_inv w'.
Proof.
  intros Hinv. destruct o as [d | d | | | i | i result | i]; simpl.
  - intros [= <-]. apply world_inv_set_position; [apply move_in_bounds | done].
  - intros [= <-]. by apply world_inv_set_angle.
  - by apply world_inv_generate_image.
  - intros [= <-]. by apply world_inv_process_generated_image.
  - unfold frame. destruct (handle_movement token_length i w) as [w1 |] eqn:Hm; [| done].
    cbn [mbind option_bind]. intros [= <-].
    apply world_inv_process_generated_image, world_inv_set_angle.
    by eapply world_inv_handle_movement.
  - by apply world_inv_thread_produce.
  - by apply world_inv_thread_finally.
Qed.

Lemma world_inv_run (token_length : string → nat) (os : list op) (w w' : World) :
  world_inv w → run token_length os w = Some w' → world_inv w'.
Proof.
  revert w. induction os as [| o os IH]; intros w Hinv; simpl.
  - by intros [= <-].
  - destruct (step token_length o w) as [w1 |] eqn:Hs; [| done].
    cbn [mbind option_bind]. apply IH. by eapply world_inv_step.
Qed.

Lemma reachable_inv (token_length : string → nat) (w : World) :
  reachable token_length w → world_inv w.
Proof.
  intros (pos & os & Hb & Hrun).
  eapply world_inv_run; [by apply world_inv_init | exact Hrun].
Qed.

(** ** What holds of every reachable world *)

(** X7. At most one worker thread is alive at any time, and [generating] is set
    exactly while one is: the flag is raised only when a worker is started
    and is cleared by that worker's last step. *)
Theorem at_most_one_worker (token_length : string → nat) (w : World) :
  reachable token_length w →
  (length (threads w) ≤ 1)%nat ∧
  (generating (player w) = true ↔ threads w ≠ []).
Proof. intros Hr. apply reachable_inv in Hr as [? ? ? ? ? ? ? ? ? ? ?]. by split. Qed.

Lemma at_most_one_worker_witness :
  ∃ w : World,
    run word_tokens (GenerateImage :: revisit_run) (new_world (Player_init (5 # 2, 5 # 2)%Q))
      = Some w ∧
    (length (threads w) ≤ 1)%nat ∧
    (generating (player w) = true ↔ threads w ≠ []).
Proof.
  destruct (run word_tokens (GenerateImage :: revisit_run)
              (new_world (Player_init (5 # 2, 5 # 2)%Q))) as [w |] eqn:Hrun.
  - exists w. split; [reflexivity |].
    apply (at_most_one_worker word_tokens w).
    exists (5 # 2, 5 # 2)%Q, (GenerateImage :: revisit_run).
    split; [| exact Hrun]. unfold in_bounds, Qle. simpl. lia.
  - vm_compute in Hrun. discriminate.
Defined.

(** X8. A finished image is queued under the key of the position at which it was
    requested: [cache_key] always is the key of [last_position], wherever the
    player has moved since, and that is the key the worker reads. *)
Theorem result_keyed_by_request_position (token_length : string → nat) (w : World) :
  reachable token_length w →
  cache_key (player w) = last_position (player w) ≫= key_of ∧
  ∀ (i : nat) (img : Image) (w' : World),
    thread_produce i (inl img) w = Some w' →
    ∃ lp : vec,
      last_position (player w) = Some lp ∧ in_bounds lp ∧
      image_queue (player w') = image_queue (player w) ++ [(key_of lp, img)].
Proof.
  intros Hr. apply reachable_inv in Hr as [_ _ _ Hkey Hlast Hreq _ _ _ _ _].
  split; [exact Hkey |]. intros i img w'. unfold thread_produce.
  destruct (threads w !! i) as [t |] eqn:Ht; [| done].
  cbn [mbind option_bind]. destruct (pc t); [| done]. intros [= <-].
  destruct Hreq as [lp Hlp]; [intros E; by rewrite E in Ht |].
  exists lp. split; [exact Hlp |]. split; [by apply Hlast |].
  simpl. by rewrite Hkey, Hlp.
Qed.

Lemma result_keyed_by_request_position_witness :
  ∃ w : World,
    run word_tokens [GenerateImage; Move (1 # 1, 1 # 1)%Q]
      (new_world (Player_init (5 # 2, 5 # 2)%Q)) = Some w ∧
    cache_key (player w) = last_position (player w) ≫= key_of.
Proof.
  destruct (run word_tokens [GenerateImage; Move (1 # 1, 1 # 1)%Q]
              (new_world (Player_init (5 # 2, 5 # 2)%Q))) as [w |] eqn:Hrun.
  - exists w. split; [reflexivity |].
    apply (result_keyed_by_request_position word_tokens w).
    exists (5 # 2, 5 # 2)%Q, [GenerateImage; Move (1 # 1, 1 # 1)%Q].
    split; [| exact Hrun]. unfold in_bounds, Qle. simpl. lia.
  - vm_compute in Hrun. discriminate.
Defined.

Lemma size_list_to_set_le (l : list CacheKey) :
  (size (list_to_set l : gset CacheKey) ≤ length l)%nat.
Proof.
  induction l as [| k l IH].
  - by rewrite list_to_set_nil, size_empty.
  - rewrite list_to_set_cons, size_union_alt, size_singleton. simpl.
    pose proof (subseteq_size (list_to_set l ∖ {[k]}) (list_to_set l : gset CacheKey)) as Hle.
    assert ((list_to_set l ∖ {[k]} : gset CacheKey) ⊆ list_to_set l) as Hsub.
    { intros x Hx. by apply elem_of_difference in Hx as [Hx _]. }
    specialize (Hle Hsub). lia.
Qed.

Lemma valid_key_in_all_keys (k : CacheKey) : valid_key k → k ∈ all_keys.
Proof.
  intros (a & b & -> & Ha & Hb). unfold all_keys. simpl in Ha, Hb.
  apply list_elem_of_bind. exists a. split; [| apply elem_of_seqZ; simpl; lia].
  apply list_elem_of_bind. exists b. split; [| apply elem_of_seqZ; simpl; lia].
  by apply list_elem_of_singleton.
Qed.

(** X9. Every key on the queue and in the cache is a pair within
    [0 .. 40] x [0 .. 40] (never Python's [None]), so the cache, which is
    never pruned, holds at most 41 * 41 = 1681 entries. *)
Theorem cache_is_bounded (token_length : string → nat) (w : World) :
  reachable token_length w →
  Forall (λ e : CacheKey * Image, valid_key e.1) (image_queue (player w)) ∧
  (∀ (k : CacheKey) (t : Texture), image_cache w !! k = Some t → valid_key k) ∧
  (size (image_cache w) ≤ 1681)%nat.
Proof.
  intros Hr. apply reachable_inv in Hr as [_ _ _ _ _ _ Hq Hck _ _ _].
  split; [exact Hq |]. split; [exact Hck |].
  rewrite <- (size_dom (D := gset CacheKey)).
  etrans; [apply (subseteq_size _ (list_to_set all_keys)) |].
  - intros k Hk. apply elem_of_dom in Hk as [t Ht].
    apply elem_of_list_to_set, valid_key_in_all_keys. by eapply Hck.
  - etrans; [apply size_list_to_set_le |]. by vm_compute.
Qed.

Lemma cache_is_bounded_witness :
  ∃ w : World,
    run word_tokens (GenerateImage :: revisit_run) (new_world (Player_init (5 # 2, 5 # 2)%Q))
      = Some w ∧
    (size (image_cache w) ≤ 1681)%nat.
Proof.
  destruct (run word_tokens (GenerateImage :: revisit_run)
              (new_world (Player_init (5 # 2, 5 # 2)%Q))) as [w |] eqn:Hrun.
  - exists w. split; [reflexivity |].
    apply (cache_is_bounded word_tokens w).
    exists (5 # 2, 5 # 2)%Q, (GenerateImage :: revisit_run).
    split; [| exact Hrun]. unfold in_bounds, Qle. simpl. lia.
  - vm_compute in Hrun. discriminate.
Defined.

(** X10. The textures in the cache are names of textures that were created, no
    two keys share a texture, and the image the player shows, if any, is a
    texture stored in the cache. *)
Theorem cached_textures_are_distinct (token_length : string → nat) (w : World) :
  reachable token_length w →
  (∀ (k : CacheKey) (t : Texture),
     image_cache w !! k = Some t → (1 ≤ t ≤ length (gl_textures w))%nat) ∧
  (∀ (k1 k2 : CacheKey) (t : Texture),
     image_cache w !! k1 = Some t → image_cache w !! k2 = Some t → k1 = k2) ∧
  (∀ t : Texture,
     image (player w) = Some t → ∃ k : CacheKey, image_cache w !! k = Some t).
Proof.
  intros Hr. apply reachable_inv in Hr as [_ _ _ _ _ _ _ _ Hct Hci Him].
  exact (conj Hct (conj Hci Him)).
Qed.

Lemma cached_textures_are_distinct_witness :
  ∃ w : World,
    run word_tokens (GenerateImage :: revisit_run) (new_world (Player_init (5 # 2, 5 # 2)%Q))
      = Some w ∧
    ∀ (k1 k2 : CacheKey) (t : Texture),
      image_cache w !! k1 = Some t → image_cache w !! k2 = Some t → k1 = k2.
Proof.
  destruct (run word_tokens (GenerateImage :: revisit_run)
              (new_world (Player_init (5 # 2, 5 # 2)%Q))) as [w |] eqn:Hrun.
  - exists w. split; [reflexivity |].
    apply (cached_textures_are_distinct word_tokens w).
    exists (5 # 2, 5 # 2)%Q, (GenerateImage :: revisit_run).
    split; [| exact Hrun]. unfold in_bounds, Qle. simpl. lia.
  - vm_compute in Hrun. discriminate.
Defined.

(** ** When generate_image raises *)

Lemma py_index_is_Some {A : Type} (l : list A) (i : Z) :
  is_Some (py_index l i) ↔ - Z.of_nat (length l) ≤ i < Z.of_nat (length l).
Proof.
  unfold py_index. destruct (0 <=? i) eqn:H0.
  - apply Z.leb_le in H0. rewrite lookup_lt_is_Some. lia.
  - apply Z.leb_gt in H0. destruct (- Z.of_nat (length l) <=? i) eqn:H1.
    + apply Z.leb_le in H1. rewrite lookup_lt_is_Some. lia.
    + apply Z.leb_gt in H1. split; [by intros [? ?] | lia].
Qed.

Lemma py_index_elem {A : Type} (l : list A) (i : Z) (a : A) :
  py_index l i = Some a → a ∈ l.
Proof.
  unfold py_index. destruct (0 <=? i); [apply list_elem_of_lookup_2 |].
  destruct (_ <=? i); [apply list_elem_of_lookup_2 | done].
Qed.

Lemma grid_rows_length (row : list string) : row ∈ grid → length row = 5%nat.
Proof.
  assert (Forall (λ r : list string, length r = 5%nat) grid) as Hall
    by (repeat constructor).
  intros Hin. by eapply Forall_forall in Hall.
Qed.

Lemma grid_at_is_Some (x y : Z) :
  is_Some (grid_at x y) ↔ (-5 ≤ x < 5 ∧ -5 ≤ y < 5).
Proof.
  unfold grid_at. split.
  - intros [label H]. destruct (py_index grid x) as [row |] eqn:Hrow; [| done].
    cbn [mbind option_bind] in H.
    assert (is_Some (py_index grid x)) as Hx by (by eexists).
    assert (is_Some (py_index row y)) as Hy by (by eexists).
    apply py_index_is_Some in Hx, Hy.
    rewrite (grid_rows_length row (py_index_elem _ _ _ Hrow)) in Hy.
    simpl in Hx. lia.
  - intros [Hx Hy].
    destruct (proj2 (py_index_is_Some grid x)) as [row Hrow]; [simpl; lia |].
    rewrite Hrow. cbn [mbind option_bind]. apply py_index_is_Some.
    rewrite (grid_rows_length row (py_index_elem _ _ _ Hrow)). lia.
Qed.

Lemma interpolation_prompts_is_Some (pos : vec) :
  is_Some (interpolation_prompts pos) ↔
  (-5 ≤ py_int pos.1 ≤ 4 ∧ -5 ≤ py_int pos.2 ≤ 4).
Proof.
  unfold interpolation_prompts. cbv zeta. split.
  - intros [ls H]. destruct (grid_at (py_int pos.1) (py_int pos.2)) as [p00 |] eqn:E; [| done].
    assert (is_Some (grid_at (py_int pos.1) (py_int pos.2))) as Hs by (by eexists).
    apply grid_at_is_Some in Hs. lia.
  - intros [Hx Hy].
    destruct (proj2 (grid_at_is_Some (py_int pos.1) (py_int pos.2))) as [p00 ->]; [lia |].
    destruct (proj2 (grid_at_is_Some (Z.min (py_int pos.1 + 1) (grid_size.1 - 1)) (py_int pos.2)))
      as [p10 ->]; [simpl; lia |].
    destruct (proj2 (grid_at_is_Some (py_int pos.1) (Z.min (py_int pos.2 + 1) (grid_size.2 - 1))))
      as [p01 ->]; [simpl; lia |].
    destruct (proj2 (grid_at_is_Some (Z.min (py_int pos.1 + 1) (grid_size.1 - 1))
                       (Z.min (py_int pos.2 + 1) (grid_size.2 - 1))))
      as [p11 ->]; [simpl; lia |].
    by eexists.
Qed.

(** [lo <= int(x) <= hi] in terms of [x], for [lo <= 0 <= hi]. *)
Lemma py_int_range (x : Q) (lo hi : Z) :
  lo ≤ 0 → 0 ≤ hi →
  (lo ≤ py_int x ≤ hi ↔ (inject_Z (lo - 1) < x)%Q ∧ (x < inject_Z (hi + 1))%Q).
Proof.
  destruct x as [a d]. unfold Qlt, py_int. simpl. intros Hlo Hhi.
  pose proof (Z.quot_rem' a (Z.pos d)) as Hqr.
  destruct (Z.le_gt_cases 0 a) as [Ha | Ha].
  - pose proof (Z.rem_bound_pos a (Z.pos d) Ha ltac:(lia)).
    pose proof (Z.quot_pos a (Z.pos d) Ha ltac:(lia)). nia.
  - replace a with (- - a) in * by lia. rewrite Z.quot_opp_l by lia.
    pose proof (Z.quot_rem' (- a) (Z.pos d)) as Hqr'.
    pose proof (Z.rem_bound_pos (- a) (Z.pos d) ltac:(lia) ltac:(lia)).
    pose proof (Z.quot_pos (- a) (Z.pos d) ltac:(lia) ltac:(lia)). nia.
Qed.

(** X5. The four grid lookups of [generate_image] (lines 117-127) raise
    [IndexError] exactly when a coordinate of the position is at or beyond 5
    or at or below -6, that is when [int] of it is outside [-5 .. 4]: between
    -6 and 0 the negative indices wrap around the grid instead of failing.
    Blending the prompt fails in exactly those cases. *)
Theorem grid_lookups_raise_iff (token_length : string → nat) (pos : vec) :
  (interpolation_prompts pos = None ↔
   ¬ ((inject_Z (-6) < pos.1)%Q ∧ (pos.1 < inject_Z 5)%Q ∧
      (inject_Z (-6) < pos.2)%Q ∧ (pos.2 < inject_Z 5)%Q)) ∧
  (combined_prompt_at token_length pos = None ↔ interpolation_prompts pos = None) ∧
  (interpolation_prompts pos = None ↔
   ¬ (-5 ≤ py_int pos.1 ≤ 4 ∧ -5 ≤ py_int pos.2 ≤ 4)).
Proof.
  pose proof (interpolation_prompts_is_Some pos) as Hi.
  pose proof Hi as Hs.
  rewrite (py_int_range pos.1 (-5) 4), (py_int_range pos.2 (-5) 4) in Hs by lia.
  simpl in Hs. unfold combined_prompt_at.
  destruct (interpolation_prompts pos) as [ls |]; cbn [mbind option_bind].
  - split; [| split].
    + split; [done |]. intros Hn. exfalso. apply Hn.
      destruct (proj1 Hs) as [[? ?] [? ?]]; [by eexists | done].
    + done.
    + split; [done |]. intros Hn. exfalso. apply Hn. apply Hi. by eexists.
  - split; [| split].
    + split; [| done]. intros _ (H1 & H2 & H3 & H4).
      destruct (proj2 Hs) as [? ?]; done.
    + done.
    + split; [| done]. intros _ Hr. by destruct (proj2 Hi Hr).
Qed.

Lemma generate_image_in_bounds (token_length : string → nat) (w : World) :
  in_bounds (position (player w)) → is_Some (generate_image token_length w).
Proof.
  intros Hb. unfold generate_image. destruct (generating (player w)); [by eexists |].
  cbv zeta. destruct (image_cache w !! _); [by eexists |].
  destruct (interpolation_prompts_in_bounds _ Hb) as (p00 & p10 & p01 & p11 & _ & Ep & _).
  unfold combined_prompt_at.
  change (position (set_cache_key _ (set_last_position _ (set_generating _ ?p))))
    with (position p).
  rewrite Ep. by eexists.
Qed.

Lemma generate_image_position (token_length : string → nat) (w w' : World) :
  generate_image token_length w = Some w' → position (player w') = position (player w).
Proof.
  unfold generate_image. destruct (generating (player w)); [by intros [= <-] |]. cbv zeta.
  destruct (image_cache w !! _); [by intros [= <-] |].
  destruct (combined_prompt_at token_length _); [| done]. by intros [= <-].
Qed.

Lemma handle_movement_position (token_length : string → nat) (i : Input) (w w' : World) :
  handle_movement token_length i w = Some w' →
  (np_any (key_direction i) = true → in_bounds (position (player w'))) ∧
  (np_any (key_direction i) = false → w' = w).
Proof.
  unfold handle_movement, maybe_regenerate. destruct (np_any (key_direction i)).
  - cbv zeta. set (w1 := set_player (move _ (player w)) w).
    assert (in_bounds (position (player w1))) as Hb by apply move_in_bounds.
    destruct (moved_significantly (player w1)).
    + intros H. apply generate_image_position in H. split; [| done]. intros _. by rewrite H.
    + intros [= <-]. by split.
  - intros [= <-]. by split.
Qed.

(** X11. One iteration of the loop of [main] never raises [IndexError], whatever
    the world it starts in: [generate_image] is only called after [move] has
    clamped the position.  When a movement key is effective the position
    after the frame is inside the grid. *)
Theorem frame_never_raises (token_length : string → nat) (i : Input) (w : World) :
  ∃ w' : World,
    frame token_length i w = Some w' ∧
    (np_any (key_direction i) = true → in_bounds (position (player w'))) ∧
    (np_any (key_direction i) = false → position (player w') = position (player w)).
Proof.
  unfold frame, handle_movement. destruct (np_any (key_direction i)).
  - cbv zeta. set (w1 := set_player (move _ (player w)) w).
    assert (in_bounds (position (player w1))) as Hb by apply move_in_bounds.
    assert (∃ w2, maybe_regenerate token_length w1 = Some w2 ∧
                  position (player w2) = position (player w1)) as (w2 & -> & Hpos).
    { unfold maybe_regenerate. destruct (moved_significantly (player w1)); [| by eexists].
      destruct (generate_image_in_bounds token_length w1 Hb) as [w2 Hw2].
      exists w2. split; [exact Hw2 |]. revert Hw2. unfold generate_image.
      destruct (generating (player w1)); [by intros [= <-] |]. cbv zeta.
      destruct (image_cache w1 !! _); [by intros [= <-] |].
      destruct (combined_prompt_at token_length _); [| done]. by intros [= <-]. }
    cbn [mbind option_bind]. eexists. split; [reflexivity |]. split; [| done].
    intros _. unfold process_generated_image. cbn [player set_player image_queue look set_angle].
    destruct (image_queue (player w2)) as [| [key img] rest]; simpl; by rewrite Hpos.
  - cbn [mbind option_bind]. eexists. split; [reflexivity |]. split; [done |].
    intros _. unfold process_generated_image. cbn [player set_player image_queue look set_angle].
    by destruct (image_queue (player w)) as [| [key img] rest].
Qed.

(** ** Polling the queue repeatedly *)

(** One poll, field by field. *)
Lemma process_generated_image_step (w : World) (key : CacheKey) (img : Image)
    (rest : list (CacheKey * Image)) :
  image_queue (player w) = (key, img) :: rest →
  image_queue (player (process_generated_image w)) = rest ∧
  image_cache (process_generated_image w)
    = <[key := S (length (gl_textures w))]> (image_cache w) ∧
  gl_textures (process_generated_image w) = gl_textures w ++ [img] ∧
  image (player (process_generated_image w)) = Some (S (length (gl_textures w))).
Proof. intros Hq. unfold process_generated_image. by rewrite Hq. Qed.

Lemma process_generated_image_empty (w : World) :
  image_queue (player w) = [] → process_generated_image w = w.
Proof. intros Hq. unfold process_generated_image. by rewrite Hq. Qed.

(** X12. [n] polls in a row take the first [n] entries of the queue in order: the
    [j]-th entry gets the texture named [length gl_textures + j + 1], which
    holds its image; a key ends up with the texture of its last entry among
    those polled; other keys keep their texture.  After as many polls as
    there were entries the queue is empty, and further polls change nothing. *)
Theorem poll_drains_in_order (n : nat) (w : World) :
  image_queue (player (poll n w)) = drop n (image_queue (player w)) ∧
  gl_textures (poll n w) = gl_textures w ++ (take n (image_queue (player w))).*2 ∧
  (∀ (j : nat) (k : CacheKey) (img : Image),
     (j < n)%nat → image_queue (player w) !! j = Some (k, img) →
     (∀ (j' : nat) (img' : Image),
        (j < j' < n)%nat → image_queue (player w) !! j' ≠ Some (k, img')) →
     image_cache (poll n w) !! k = Some (S (length (gl_textures w) + j)) ∧
     gl_textures (poll n w) !! (length (gl_textures w) + j)%nat = Some img) ∧
  (∀ k : CacheKey,
     (∀ (j : nat) (img : Image),
        (j < n)%nat → image_queue (player w) !! j ≠ Some (k, img)) →
     image_cache (poll n w) !! k = image_cache w !! k).
Proof.
  set (q := image_queue (player w)).
  assert (∀ m (j : nat) (k : CacheKey) (img : Image),
            gl_textures (poll m w) = gl_textures w ++ (take m q).*2 →
            (j < m)%nat → q !! j = Some (k, img) →
            gl_textures (poll m w) !! (length (gl_textures w) + j)%nat = Some img) as Htex.
  { intros m j k img -> Hj Hq. rewrite lookup_app_r by lia.
    replace (length (gl_textures w) + j - length (gl_textures w))%nat with j by lia.
    by rewrite list_lookup_fmap, lookup_take_lt, Hq. }
  induction n as [| n (IHq & IHt & IHc & IHo)].
  - change (poll 0 w) with w. rewrite drop_0, take_0, app_nil_r.
    repeat split; try done; intros; lia.
  - change (poll (S n) w) with (process_generated_image (poll n w)).
    destruct (drop n q) as [| [k0 img0] rest] eqn:Hdrop.
    + rewrite (process_generated_image_empty (poll n w)) by (by rewrite IHq).
      assert (length q ≤ n)%nat as Hlen.
      { apply (f_equal length) in Hdrop. rewrite length_drop in Hdrop. simpl in Hdrop. lia. }
      rewrite IHq, IHt. rewrite (drop_ge q (S n)), (take_ge q (S n)), (take_ge q n) by lia.
      split; [done |]. split; [done |]. split.
      * intros j k img Hj Hq Hlater.
        assert (j < n)%nat as Hjn by (apply lookup_lt_Some in Hq; lia).
        destruct (IHc j k img Hjn Hq) as [Hc Ht]; [intros; apply Hlater; lia |].
        split; [exact Hc |]. rewrite IHt, (take_ge q n) in Ht by lia. exact Ht.
      * intros k Hk. apply IHo. intros; apply Hk; lia.
    + destruct (process_generated_image_step (poll n w) k0 img0 rest)
        as (Hq' & Hc' & Ht' & _); [by rewrite IHq |].
      assert (q !! n = Some (k0, img0)) as Hn.
      { rewrite <- (Nat.add_0_r n), <- lookup_drop, Hdrop. done. }
      assert (length (gl_textures (poll n w)) = (length (gl_textures w) + n)%nat) as Hlen.
      { rewrite IHt, length_app, length_fmap, length_take_le; [done |].
        apply lookup_lt_Some in Hn. lia. }
      assert (gl_textures (process_generated_image (poll n w))
              = gl_textures w ++ (take (S n) q).*2) as Ht''.
      { rewrite Ht', IHt, (take_S_r q n (k0, img0) Hn), fmap_app, <- app_assoc. done. }
      split; [| split; [exact Ht'' | split]].
      * rewrite Hq'. rewrite (drop_S q (k0, img0) n Hn) in Hdrop. by injection Hdrop.
      * intros j k img Hj Hq Hlater. split; [| by eapply (Htex (S n))].
        rewrite Hc', Hlen. destruct (decide (j = n)) as [-> | Hne].
        -- rewrite Hn in Hq. injection Hq as -> ->. by rewrite lookup_insert_eq.
        -- assert (k0 ≠ k) as Hk.
           { intros ->. apply (Hlater n img0); [lia | exact Hn]. }
           rewrite lookup_insert_ne by done.
           apply (IHc j k img); [lia | done |]. intros; apply Hlater; lia.
      * intros k Hk. rewrite Hc'.
        assert (k0 ≠ k) as Hne by (intros ->; by apply (Hk n img0); [lia |]).
        rewrite lookup_insert_ne by done. apply IHo. intros; apply Hk; lia.
Qed.

(** ** combine_prompts in general *)

(** X1. The labels being non-empty strings, the result of [combine_prompts] is
    the first [k] positive-weight labels joined by [" | "], in the order of
    the lists: [k] is at least 1 when some weight is positive, every shorter
    prefix fits in [max_length] tokens, and unless all labels were taken the
    result itself does not fit (it overshoots by its last label). *)
Theorem combine_prompts_is_prefix (token_length : string → nat)
    (prompts : list string) (weights : list Q) (max_length : Z) :
  Forall (λ s, s ≠ ""%string) prompts →
  ∃ k : nat,
    (k ≤ length (positive_labels (zip prompts weights)))%nat ∧
    (positive_labels (zip prompts weights) ≠ [] → (1 ≤ k)%nat) ∧
    combine_prompts token_length prompts weights max_length
      = join_labels (take k (positive_labels (zip prompts weights))) ∧
    (∀ j : nat, (1 ≤ j < k)%nat →
       Z.of_nat (token_length (join_labels (take j (positive_labels (zip prompts weights)))))
       ≤ max_length) ∧
    ((k < length (positive_labels (zip prompts weights)))%nat →
       max_length
       < Z.of_nat (token_length (join_labels (take k (positive_labels (zip prompts weights)))))).
Proof.
  intros Hall.
  destruct (combine_loop_spec token_length max_length (zip prompts weights) [])
    as (k & Hk & Hk1 & Heq & Hle & Hgt);
    [constructor | by apply positive_labels_nonempty |].
  exists k. repeat split; done.
Qed.

Lemma combine_prompts_is_prefix_witness :
  ∃ k : nat,
    (1 ≤ k)%nat ∧
    combine_prompts word_tokens ["A dense forest"; "A snowy mountain"; "A serene beach"]%string
      [1 # 2; 0; 1 # 2]%Q 77
    = join_labels (take k ["A dense forest"; "A serene beach"]%string).
Proof.
  destruct (combine_prompts_is_prefix word_tokens
              ["A dense forest"; "A snowy mountain"; "A serene beach"]%string
              [1 # 2; 0; 1 # 2]%Q 77) as (k & _ & Hk1 & Heq & _).
  - repeat constructor; discriminate.
  - exists k. split; [apply Hk1; discriminate | exact Heq].
Defined.

(** X2. When every prefix of the positive-weight labels fits in [max_length]
    tokens, the result is all of them joined: nothing is cut. *)
Theorem combine_prompts_all_fit (token_length : string → nat)
    (prompts : list string) (weights : list Q) (max_length : Z) :
  Forall (λ s, s ≠ ""%string) prompts →
  (∀ j : nat,
     (1 ≤ j < length (positive_labels (zip prompts weights)))%nat →
     Z.of_nat (token_length (join_labels (take j (positive_labels (zip prompts weights)))))
     ≤ max_length) →
  combine_prompts token_length prompts weights max_length
  = join_labels (positive_labels (zip prompts weights)).
Proof.
  intros Hall Hfit.
  destruct (combine_loop_spec token_length max_length (zip prompts weights) [])
    as (k & Hk & Hk1 & Heq & _ & Hgt);
    [constructor | by apply positive_labels_nonempty |].
  unfold combine_prompts. change (join_labels []) with ""%string in Heq.
  rewrite Heq. simpl.
  destruct (decide (k = length (positive_labels (zip prompts weights)))) as [-> | Hne].
  - by rewrite take_ge.
  - assert (k < length (positive_labels (zip prompts weights)))%nat as Hlt by lia.
    specialize (Hgt Hlt). simpl in Hgt.
    assert (1 ≤ k)%nat as H1.
    { apply Hk1. intros E. rewrite E in Hlt. simpl in Hlt. lia. }
    specialize (Hfit k ltac:(lia)). lia.
Qed.

Lemma combine_prompts_all_fit_witness :
  combine_prompts word_tokens ["A dense forest"; "A snowy mountain"]%string [1 # 2; 1 # 2]%Q 77
  = "A dense forest | A snowy mountain"%string.
Proof.
  apply (combine_prompts_all_fit word_tokens
           ["A dense forest"; "A snowy mountain"]%string [1 # 2; 1 # 2]%Q 77).
  - repeat constructor; discriminate.
  - intros j Hj. simpl in Hj. assert (j = 1%nat) as -> by lia. vm_compute. discriminate.
Defined.

Lemma combine_loop_no_positive (token_length : string → nat) (max_length : Z)
    (combined : string) (pw : list (string * Q)) :
  Forall (λ x : string * Q, (x.2 <= 0)%Q) pw →
  combine_loop token_length max_length combined pw = combined.
Proof.
  induction 1 as [| [p wt] pw Hw _ IH]; simpl; [done |].
  apply Qpositive_false in Hw. simpl in Hw. by rewrite Hw.
Qed.

(** X3. Without a positive weight the result is the empty string, whatever the
    labels and the limit; so it is for an empty list of prompts or of
    weights.  A surplus of prompts over weights, or of weights over prompts,
    is ignored. *)
Theorem combine_prompts_degenerate (token_length : string → nat)
    (prompts : list string) (weights : list Q) (max_length : Z) :
  (Forall (λ wt : Q, (wt <= 0)%Q) weights →
   combine_prompts token_length prompts weights max_length = ""%string) ∧
  combine_prompts token_length [] weights max_length = ""%string ∧
  combine_prompts token_length prompts [] max_length = ""%string ∧
  (∀ extra : list string,
     (length weights ≤ length prompts)%nat →
     combine_prompts token_length (prompts ++ extra) weights max_length
     = combine_prompts token_length prompts weights max_length) ∧
  (∀ extra : list Q,
     (length prompts ≤ length weights)%nat →
     combine_prompts token_length prompts (weights ++ extra) max_length
     = combine_prompts token_length prompts weights max_length).
Proof.
  unfold combine_prompts. split; [| split; [| split; [| split]]].
  - intros Hall. apply combine_loop_no_positive.
    revert prompts. induction Hall as [| wt ws Hw _ IH]; intros [| p ps]; simpl;
      constructor; auto.
  - reflexivity.
  - by destruct prompts.
  - intros extra Hlen. f_equal. revert weights Hlen.
    induction prompts as [| p ps IH]; intros [| wt ws] Hlen; simpl in *;
      try lia; try (by destruct extra).
    f_equal. apply IH. lia.
  - intros extra Hlen. f_equal. revert weights Hlen.
    induction prompts as [| p ps IH]; intros [| wt ws] Hlen; simpl in *; try lia; try done.
    f_equal. apply IH. lia.
Qed.

(** ** Weights *)

Lemma unit_product_bounds (a b : Q) :
  (0 <= a)%Q → (a <= 1)%Q → (0 <= b)%Q → (b <= 1)%Q → (0 <= a * b)%Q ∧ (a * b <= 1)%Q.
Proof.
  intros Ha0 Ha1 Hb0 Hb1. split; [by apply Qmult_le_0_compat |].
  apply Qle_trans with (1 * b)%Q.
  - by apply Qmult_le_compat_r.
  - by rewrite Qmult_1_l.
Qed.

(** X4. At a position of the grid each of the four bilinear weights is
    between 0 and 1, and the weight of the cell [(x0, y0)], the first one, is
    positive. *)
Theorem interpolation_weights_in_unit_interval (pos : vec) :
  in_bounds pos →
  Forall (λ wt : Q, (0 <= wt)%Q ∧ (wt <= 1)%Q) (interpolation_weights pos) ∧
  ∃ (w00 : Q) (rest : list Q), interpolation_weights pos = w00 :: rest ∧ (0 < w00)%Q.
Proof.
  intros [[Hx0 _] [Hy0 _]].
  destruct (py_int_frac _ Hx0) as [Hx1 Hx2]. destruct (py_int_frac _ Hy0) as [Hy1 Hy2].
  unfold interpolation_weights. cbv zeta.
  set (tx := (pos.1 - inject_Z (py_int pos.1))%Q) in *.
  set (ty := (pos.2 - inject_Z (py_int pos.2))%Q) in *.
  split.
  - assert (0 <= 1 - tx)%Q as Hcx0.
    { apply Qlt_le_weak in Hx2. by apply -> Qle_minus_iff. }
    assert (0 <= 1 - ty)%Q as Hcy0.
    { apply Qlt_le_weak in Hy2. by apply -> Qle_minus_iff. }
    assert (1 - tx <= 1)%Q as Hcx1.
    { apply Qle_minus_iff. ring_simplify. exact Hx1. }
    assert (1 - ty <= 1)%Q as Hcy1.
    { apply Qle_minus_iff. ring_simplify. exact Hy1. }
    apply Qlt_le_weak in Hx2, Hy2.
    repeat constructor; by apply unit_product_bounds.
  - eexists _, _. split; [reflexivity |]. by apply first_weight_positive.
Qed.

Lemma interpolation_weights_in_unit_interval_witness :
  Forall (λ wt : Q, (0 <= wt)%Q ∧ (wt <= 1)%Q) (interpolation_weights (13 # 5, 4 # 1)%Q).
Proof.
  apply (interpolation_weights_in_unit_interval (13 # 5, 4 # 1)%Q).
  unfold in_bounds, Qle. simpl. lia.
Defined.

(** ** Moving, looking and standing still *)

Lemma np_clip_inside (x lo hi : Q) : (lo <= x)%Q → (x <= hi)%Q → (np_clip x lo hi == x)%Q.
Proof.
  intros Hlo Hhi. unfold np_clip. rewrite (Q.max_l x lo Hlo). by apply Q.min_l.
Qed.

Lemma np_clip_above (x lo hi : Q) : (lo <= hi)%Q → (hi <= x)%Q → (np_clip x lo hi == hi)%Q.
Proof.
  intros Hle Hx. unfold np_clip. apply Q.min_r.
  apply Qle_trans with x; [exact Hx | apply Q.le_max_l].
Qed.

Lemma np_clip_below (x lo hi : Q) : (lo <= hi)%Q → (x <= lo)%Q → (np_clip x lo hi == lo)%Q.
Proof.
  intros Hle Hx. unfold np_clip. rewrite (Q.max_r x lo Hx). by apply Q.min_l.
Qed.

(** X13. A move whose target is inside the grid is not altered by the clamp, and
    a coordinate pushed past a wall stops on the wall, whatever the other
    coordinate does. *)
Theorem move_inside_and_at_walls (d : vec) (p : Player) :
  (in_bounds (vadd (position p) d) →
   ((position (move d p)).1 == (position p).1 + d.1)%Q ∧
   ((position (move d p)).2 == (position p).2 + d.2)%Q) ∧
  (((position p).1 + d.1 <= 0)%Q → ((position (move d p)).1 == 0)%Q) ∧
  ((inject_Z (grid_size.1 - 1) <= (position p).1 + d.1)%Q →
   ((position (move d p)).1 == inject_Z (grid_size.1 - 1))%Q) ∧
  (((position p).2 + d.2 <= 0)%Q → ((position (move d p)).2 == 0)%Q) ∧
  ((inject_Z (grid_size.2 - 1) <= (position p).2 + d.2)%Q →
   ((position (move d p)).2 == inject_Z (grid_size.2 - 1))%Q).
Proof.
  assert (in_bounds (vadd (position p) d) →
          ((position (move d p)).1 == (position p).1 + d.1)%Q ∧
          ((position (move d p)).2 == (position p).2 + d.2)%Q) as Hin.
  { intros [[? ?] [? ?]]. split; simpl; by apply np_clip_inside. }
  split; [exact Hin |]. repeat split.
  - intros H. simpl. by apply np_clip_below.
  - intros H. simpl. by apply np_clip_above.
  - intros H. simpl. by apply np_clip_below.
  - intros H. simpl. by apply np_clip_above.
Qed.

Lemma move_inside_and_at_walls_witness :
  ((position (move (1 # 2, - (1 # 4))%Q (Player_init (5 # 2, 5 # 2)%Q))).1 == (5 # 2) + (1 # 2))%Q ∧
  ((position (move (1 # 2, - (1 # 4))%Q (Player_init (5 # 2, 5 # 2)%Q))).2 == (5 # 2) + - (1 # 4))%Q.
Proof.
  apply (proj1 (move_inside_and_at_walls (1 # 2, - (1 # 4))%Q (Player_init (5 # 2, 5 # 2)%Q))).
  unfold in_bounds, Qle. simpl. lia.
Defined.

(** X14. [look] adds the yaw delta as it is; the pitch follows the delta while
    the sum stays within [[-90, 90]] and otherwise stops at the bound it
    crossed; the position is not touched. *)
Theorem look_saturates_pitch (d : vec) (p : Player) :
  (angle (look d p)).1 = ((angle p).1 + d.1)%Q ∧
  ((inject_Z (-90) <= (angle p).2 + d.2)%Q → ((angle p).2 + d.2 <= inject_Z 90)%Q →
   ((angle (look d p)).2 == (angle p).2 + d.2)%Q) ∧
  ((inject_Z 90 <= (angle p).2 + d.2)%Q → ((angle (look d p)).2 == inject_Z 90)%Q) ∧
  (((angle p).2 + d.2 <= inject_Z (-90))%Q → ((angle (look d p)).2 == inject_Z (-90))%Q) ∧
  position (look d p) = position p.
Proof.
  split; [reflexivity |]. repeat split.
  - intros Hlo Hhi. simpl. by apply np_clip_inside.
  - intros H. simpl. by apply np_clip_above.
  - intros H. simpl. by apply np_clip_below.
Qed.

Lemma look_saturates_pitch_witness :
  ((angle (look (10, 120)%Q (Player_init (5 # 2, 5 # 2)%Q))).2 == inject_Z 90)%Q.
Proof.
  apply (proj1 (proj2 (proj2 (look_saturates_pitch (10, 120)%Q (Player_init (5 # 2, 5 # 2)%Q))))).
  discriminate.
Defined.

Lemma np_any_key_direction (i : Input) :
  np_any (key_direction i) = false ↔ (key_w i = key_s i ∧ key_a i = key_d i).
Proof.
  destruct i as [kw ks ka kd c sn m]. unfold key_direction. simpl.
  destruct kw, ks, ka, kd; vm_compute; split; (by intros [? ?]) || (by intros) || (by split).
Qed.

(** X15. The movement keys cancel in pairs: with [w] and [s] both pressed or both
    released, and likewise [a] and [d], the frame neither moves the player
    nor tests whether to regenerate, however far the player is from the last
    request.  Otherwise the player is moved (and clamped into the grid). *)
Theorem no_net_input_no_request (token_length : string → nat) (i : Input) (w : World) :
  (key_w i = key_s i → key_a i = key_d i → handle_movement token_length i w = Some w) ∧
  ((key_w i ≠ key_s i ∨ key_a i ≠ key_d i) →
   ∀ w' : World, handle_movement token_length i w = Some w' →
                 in_bounds (position (player w'))).
Proof.
  split.
  - intros Hws Had. unfold handle_movement.
    by rewrite (proj2 (np_any_key_direction i) (conj Hws Had)).
  - intros Hkeys w' Hm.
    assert (np_any (key_direction i) = true) as Hany.
    { destruct (np_any (key_direction i)) eqn:E; [done |].
      apply np_any_key_direction in E as [? ?]. destruct Hkeys; done. }
    by apply (handle_movement_position token_length i w w' Hm).
Qed.

Lemma no_net_input_no_request_witness :
  handle_movement word_tokens (keys true true false false)
    (new_world (set_last_position (Some (0, 0)%Q) (Player_init (5 # 2, 5 # 2)%Q)))
  = Some (new_world (set_last_position (Some (0, 0)%Q) (Player_init (5 # 2, 5 # 2)%Q))).
Proof.
  apply (proj1 (no_net_input_no_request word_tokens (keys true true false false)
                  (new_world (set_last_position (Some (0, 0)%Q) (Player_init (5 # 2, 5 # 2)%Q)))));
    reflexivity.
Defined.

(** ** Frames around a production *)

(** X16. While a production is running, a frame starts no other one and keeps no
    request for later: whatever the keys, the threads, [last_position],
    [cache_key] and the flag are as before. *)
Theorem frame_while_generating (token_length : string → nat) (i : Input) (w : World) :
  generating (player w) = true →
  ∃ w' : World,
    frame token_length i w = Some w' ∧
    threads w' = threads w ∧
    generating (player w') = true ∧
    last_position (player w') = last_position (player w) ∧
    cache_key (player w') = cache_key (player w).
Proof.
  intros Hgen.
  assert (∃ w1, handle_movement token_length i w = Some w1 ∧ threads w1 = threads w ∧
                generating (player w1) = true ∧
                last_position (player w1) = last_position (player w) ∧
                cache_key (player w1) = cache_key (player w)) as (w1 & Hm & Ht & Hg & Hl & Hk).
  { unfold handle_movement, maybe_regenerate. destruct (np_any (key_direction i)); [| by eexists].
    cbv zeta. destruct (moved_significantly _); [| by eexists].
    unfold generate_image. cbn [player set_player generating move set_position].
    rewrite Hgen. by eexists. }
  unfold frame. rewrite Hm. cbn [mbind option_bind]. eexists. split; [reflexivity |].
  unfold process_generated_image. cbn [player set_player image_queue look set_angle].
  destruct (image_queue (player w1)) as [| [key img] rest]; simpl; by repeat split.
Qed.

Lemma frame_while_generating_witness :
  ∃ w' : World,
    frame word_tokens (keys false false false true)
      (spawn (mkWorker "A dense forest" Producing)
         (new_world (set_generating true (Player_init (5 # 2, 5 # 2)%Q)))) = Some w' ∧
    threads w' = [mkWorker "A dense forest" Producing] ∧
    generating (player w') = true.
Proof.
  destruct (frame_while_generating word_tokens (keys false false false true)
              (spawn (mkWorker "A dense forest" Producing)
                 (new_world (set_generating true (Player_init (5 # 2, 5 # 2)%Q)))) eq_refl)
    as (w' & Hf & Ht & Hg & _).
  exists w'. repeat split; assumption.
Defined.

(** X17. A successful production is in the cache after the next frame: when the
    queue is empty and worker [i] finishes with an image, the frame that
    follows stores a new texture holding that image under the key the
    production was started for, shows it, and leaves the queue empty;
    whatever the keys pressed in that frame. *)
Theorem production_cached_after_next_frame (token_length : string → nat)
    (i : nat) (input : Input) (img : Image) (w : World) (t : Worker) :
  threads w !! i = Some t → pc t = Producing → image_queue (player w) = [] →
  ∃ w1 w2 : World,
    run_generation i (inl img) w = Some w1 ∧
    frame token_length input w1 = Some w2 ∧
    image_cache w2 !! cache_key (player w) = Some (S (length (gl_textures w))) ∧
    gl_textures w2 !! length (gl_textures w) = Some img ∧
    image (player w2) = Some (S (length (gl_textures w))) ∧
    image_queue (player w2) = [].
Proof.
  intros Ht Hpc Hq. pose proof (run_generation_spec i (inl img) w t Ht Hpc) as Hrun.
  match type of Hrun with _ = Some ?x => set (w1 := x) in Hrun end.
  assert (image_queue (player w1) = [(cache_key (player w), img)]) as Hq1.
  { subst w1. simpl. by rewrite Hq. }
  exists w1.
  destruct (handle_movement token_length input w1) as [w1' |] eqn:Hm.
  - apply handle_movement_frame in Hm as Hfr. destruct Hfr as (Hc & Hq' & Hg).
    eexists. split; [exact Hrun |]. split; [unfold frame; rewrite Hm; reflexivity |].
    set (w1l := set_player (look _ (player w1')) w1').
    destruct (process_generated_image_step w1l (cache_key (player w)) img [])
      as (Hqueue & Hcache & Htex & Himage).
    { subst w1l. cbn [player set_player image_queue look set_angle]. by rewrite Hq', Hq1. }
    assert (gl_textures w1l = gl_textures w) as Hgl by (subst w1l; exact Hg).
    rewrite Hgl in Hcache, Htex, Himage. repeat split.
    + rewrite Hcache. apply lookup_insert_eq.
    + rewrite Htex. by rewrite lookup_app_r, Nat.sub_diag.
    + exact Himage.
    + exact Hqueue.
  - exfalso. unfold handle_movement, maybe_regenerate in Hm.
    destruct (np_any (key_direction input)); [| done]. cbv zeta in Hm.
    destruct (moved_significantly _); [| done].
    destruct (generate_image_in_bounds token_length
                (set_player (move ((key_direction input).1 * cos_yaw input
                                   - (key_direction input).2 * sin_yaw input,
                                   (key_direction input).1 * sin_yaw input
                                   + (key_direction input).2 * cos_yaw input)%Q (player w1)) w1))
      as [w2 Hw2]; [apply move_in_bounds |].
    by rewrite Hw2 in Hm.
Qed.

Lemma production_cached_after_next_frame_witness :
  ∃ w1 w2 : World,
    run_generation 0 (inl 7%nat)
      (spawn (mkWorker "A dense forest" Producing)
         (new_world (set_cache_key (Some (25, 25))
                       (set_generating true (Player_init (5 # 2, 5 # 2)%Q))))) = Some w1 ∧
    frame word_tokens idle w1 = Some w2 ∧
    image_cache w2 !! Some (25, 25) = Some 1%nat ∧
    image (player w2) = Some 1%nat.
Proof.
  destruct (production_cached_after_next_frame word_tokens 0 idle 7%nat
              (spawn (mkWorker "A dense forest" Producing)
                 (new_world (set_cache_key (Some (25, 25))
                               (set_generating true (Player_init (5 # 2, 5 # 2)%Q)))))
              (mkWorker "A dense forest" Producing) eq_refl eq_refl eq_refl)
    as (w1 & w2 & Hr & Hf & Hc & _ & Hi & _).
  exists w1, w2. repeat split; assumption.
Defined.

(** ** Rendering *)

Lemma gl_for_no_raise {A : Type} (xs : list A) (body : A → list gl_call * bool) :
  Forall (λ x, (body x).2 = false) xs →
  gl_for xs body = (xs ≫= (λ x, (body x).1), false).
Proof.
  induction 1 as [| x xs Hx _ IH]; [reflexivity |].
  simpl. destruct (body x) as [calls raised]. simpl in Hx. subst raised.
  by rewrite IH.
Qed.

Lemma bind_length_const {A B : Type} (f : A → list B) (xs : list A) (n : nat) :
  Forall (λ x, length (f x) = n) xs → length (xs ≫= f) = (length xs * n)%nat.
Proof.
  induction 1 as [| x xs Hx _ IH]; [reflexivity |].
  rewrite bind_cons, length_app, IH, Hx. simpl. lia.
Qed.

Lemma count_vertices_app (a b : list gl_call) :
  count_vertices (a ++ b) = (count_vertices a + count_vertices b)%nat.
Proof. unfold count_vertices. by rewrite List.filter_app, length_app. Qed.

Lemma bind_count_vertices_const {A : Type} (f : A → list gl_call) (xs : list A) (n : nat) :
  Forall (λ x, count_vertices (f x) = n) xs →
  count_vertices (xs ≫= f) = (length xs * n)%nat.
Proof.
  induction 1 as [| x xs Hx _ IH]; [reflexivity |].
  rewrite bind_cons, count_vertices_app, IH, Hx. simpl. lia.
Qed.

Lemma unit_fraction (a n : Z) :
  0 ≤ a ≤ n → 1 ≤ n → (0 <= inject_Z a / inject_Z n)%Q ∧ (inject_Z a / inject_Z n <= 1)%Q.
Proof.
  intros Ha Hn. destruct n as [| p | p]; try lia.
  unfold Qdiv, Qinv, Qmult, Qle, inject_Z. simpl. nia.
Qed.

Lemma float_div_nonzero (x : Q) (n : Z) :
  n ≠ 0 → float_div x n = Some (x / inject_Z n)%Q.
Proof. intros Hn. unfold float_div. by destruct (Z.eqb_spec n 0). Qed.

Section RendererLemmas.

Variable np_pi : Q.
Variable np_sin : Q → Q.
Variable np_cos : Q → Q.

Lemma sphere_slice_regular (radius : Q) (slices stacks i j : Z) :
  slices ≠ 0 → stacks ≠ 0 →
  ∃ x0 y0 z0 x1 y1 z1 : Q,
    sphere_slice np_pi np_sin np_cos radius slices stacks i j
    = ([ GlTexCoord2f (inject_Z j / inject_Z slices) (inject_Z i / inject_Z stacks);
         GlVertex3f x0 y0 z0;
         GlTexCoord2f (inject_Z j / inject_Z slices) (inject_Z (i + 1) / inject_Z stacks);
         GlVertex3f x1 y1 z1 ], false).
Proof.
  intros Hsl Hst. unfold sphere_slice. rewrite !float_div_nonzero by done.
  by eexists _, _, _, _, _, _.
Qed.

(** One stack of a regular sphere: a strip of [slices + 1] slices between
    [glBegin] and [glEnd]. *)
Lemma sphere_stack_regular (radius : Q) (slices stacks i : Z) :
  1 ≤ slices → 0 ≤ i < stacks →
  let body := seqZ 0 (slices + 1)
              ≫= (λ j, (sphere_slice np_pi np_sin np_cos radius slices stacks i j).1) in
  sphere_stack np_pi np_sin np_cos radius slices stacks i
  = (GlBeginQuadStrip :: body ++ [GlEnd], false) ∧
  length body = (4 * (Z.to_nat slices + 1))%nat ∧
  count_vertices body = (2 * (Z.to_nat slices + 1))%nat ∧
  tex_coords_in_unit_square body ∧
  (GlBeginQuadStrip ∉ body) ∧ (GlEnd ∉ body).
Proof.
  intros Hsl Hi body. subst body. unfold sphere_stack. rewrite !float_div_nonzero by lia.
  assert (Forall (λ j, (sphere_slice np_pi np_sin np_cos radius slices stacks i j).2 = false)
            (seqZ 0 (slices + 1))) as Hok.
  { apply Forall_forall. intros j _.
    destruct (sphere_slice_regular radius slices stacks i j) as (? & ? & ? & ? & ? & ? & ->);
      [lia | lia | done]. }
  rewrite (gl_for_no_raise _ _ Hok).
  split; [reflexivity |].
  assert (length (seqZ 0 (slices + 1)) = (Z.to_nat slices + 1)%nat) as Hlen
    by (rewrite length_seqZ; lia).
  split; [| split; [| split; [| split]]].
  - rewrite (bind_length_const _ _ 4), Hlen; [lia |].
    apply Forall_forall. intros j _.
    destruct (sphere_slice_regular radius slices stacks i j) as (? & ? & ? & ? & ? & ? & ->);
      [lia | lia | done].
  - rewrite (bind_count_vertices_const _ _ 2), Hlen; [lia |].
    apply Forall_forall. intros j _.
    destruct (sphere_slice_regular radius slices stacks i j) as (? & ? & ? & ? & ? & ? & ->);
      [lia | lia | done].
  - intros u v Hin. apply list_elem_of_bind in Hin as (j & Hin & Hj).
    apply elem_of_seqZ in Hj.
    destruct (sphere_slice_regular radius slices stacks i j) as (? & ? & ? & ? & ? & ? & E);
      [lia | lia |].
    rewrite E in Hin. simpl in Hin.
    apply elem_of_cons in Hin as [[= -> ->] | Hin];
      [split; apply unit_fraction; lia |].
    apply elem_of_cons in Hin as [[=] | Hin].
    apply elem_of_cons in Hin as [[= -> ->] | Hin];
      [split; apply unit_fraction; lia |].
    apply elem_of_cons in Hin as [[=] | Hin]. by apply elem_of_nil in Hin.
  - intros Hin. apply list_elem_of_bind in Hin as (j & Hin & _).
    destruct (sphere_slice_regular radius slices stacks i j) as (? & ? & ? & ? & ? & ? & E);
      [lia | lia |].
    rewrite E in Hin. simpl in Hin.
    repeat (apply elem_of_cons in Hin as [[=] | Hin]). by apply elem_of_nil in Hin.
  - intros Hin. apply list_elem_of_bind in Hin as (j & Hin & _).
    destruct (sphere_slice_regular radius slices stacks i j) as (? & ? & ? & ? & ? & ? & E);
      [lia | lia |].
    rewrite E in Hin. simpl in Hin.
    repeat (apply elem_of_cons in Hin as [[=] | Hin]). by apply elem_of_nil in Hin.
Qed.

End RendererLemmas.

Lemma bind_fmap_Forall {A B C : Type} (xs : list A) (f : A → list C) (g : A → B)
    (h : B → list C) :
  Forall (λ x, f x = h (g x)) xs → xs ≫= f = (g <$> xs) ≫= h.
Proof.
  induction 1 as [| x xs Hx _ IH]; [reflexivity |].
  by rewrite fmap_cons, !bind_cons, Hx, IH.
Qed.

Lemma render_sphere_no_raise (np_pi : Q) (np_sin np_cos : Q → Q)
    (radius : Q) (slices stacks : Z) :
  1 ≤ slices →
  render_sphere np_pi np_sin np_cos radius slices stacks
  = (seqZ 0 stacks ≫= (λ i, (sphere_stack np_pi np_sin np_cos radius slices stacks i).1), false).
Proof.
  intros Hsl. unfold render_sphere. apply gl_for_no_raise.
  apply Forall_forall. intros i Hi. apply elem_of_seqZ in Hi.
  destruct (sphere_stack_regular np_pi np_sin np_cos radius slices stacks i Hsl) as (-> & _);
    [lia | done].
Qed.

(** X18. With at least one slice, [render_sphere] raises nothing and logs one
    quad strip per stack ([range(stacks)], none when [stacks <= 0]): each is
    [glBegin], then for each of the [slices + 1] meridians two texture
    coordinates and two vertices, then [glEnd].  All texture coordinates are
    within the unit square, and [2 * stacks * (slices + 1)] vertices are
    sent in all. *)
Theorem render_sphere_regular (np_pi : Q) (np_sin np_cos : Q → Q)
    (radius : Q) (slices stacks : Z) :
  1 ≤ slices →
  ∃ bodies : list (list gl_call),
    render_sphere np_pi np_sin np_cos radius slices stacks
    = (bodies ≫= (λ b, GlBeginQuadStrip :: b ++ [GlEnd]), false) ∧
    length bodies = Z.to_nat stacks ∧
    Forall (λ b, length b = (4 * (Z.to_nat slices + 1))%nat ∧
                 count_vertices b = (2 * (Z.to_nat slices + 1))%nat ∧
                 tex_coords_in_unit_square b ∧
                 (GlBeginQuadStrip ∉ b) ∧ (GlEnd ∉ b)) bodies ∧
    count_vertices (render_sphere np_pi np_sin np_cos radius slices stacks).1
    = (Z.to_nat stacks * (2 * (Z.to_nat slices + 1)))%nat.
Proof.
  intros Hsl. rewrite render_sphere_no_raise by done.
  set (body := λ i : Z,
         seqZ 0 (slices + 1)
         ≫= (λ j, (sphere_slice np_pi np_sin np_cos radius slices stacks i j).1)).
  assert (∀ i, i ∈ seqZ 0 stacks →
            (sphere_stack np_pi np_sin np_cos radius slices stacks i).1
            = GlBeginQuadStrip :: body i ++ [GlEnd] ∧
            length (body i) = (4 * (Z.to_nat slices + 1))%nat ∧
            count_vertices (body i) = (2 * (Z.to_nat slices + 1))%nat ∧
            tex_coords_in_unit_square (body i) ∧
            (GlBeginQuadStrip ∉ body i) ∧ (GlEnd ∉ body i)) as Hstack.
  { intros i Hi. apply elem_of_seqZ in Hi.
    destruct (sphere_stack_regular np_pi np_sin np_cos radius slices stacks i Hsl)
      as (-> & Hrest); [lia |]. split; [reflexivity | exact Hrest]. }
  exists (body <$> seqZ 0 stacks). split; [| split; [| split]].
  - f_equal. apply bind_fmap_Forall, Forall_forall. intros i Hi. by apply Hstack.
  - rewrite length_fmap, length_seqZ. lia.
  - apply Forall_fmap, Forall_forall. intros i Hi. by apply Hstack.
  - cbn [fst]. rewrite (bind_count_vertices_const _ _ (2 * (Z.to_nat slices + 1))).
    + rewrite length_seqZ. lia.
    + apply Forall_forall. intros i Hi. destruct (Hstack i Hi) as (-> & _ & Hc & _).
      change (GlBeginQuadStrip :: body i ++ [GlEnd])
        with ([GlBeginQuadStrip] ++ body i ++ [GlEnd]).
      rewrite !count_vertices_app, Hc.
      change (count_vertices [GlBeginQuadStrip]) with 0%nat.
      change (count_vertices [GlEnd]) with 0%nat. lia.
Qed.

Lemma render_sphere_regular_witness :
  count_vertices (render_sphere (22 # 7) (λ x, x) (λ x, 1 - x)%Q 50 4 3).1 = (3 * (2 * (4 + 1)))%nat.
Proof.
  destruct (render_sphere_regular (22 # 7) (λ x, x) (λ x, 1 - x)%Q 50 4 3) as (bodies & _ & _ & _ & H).
  - lia.
  - exact H.
Defined.

(** X19. The degenerate arguments of [render_sphere]: with [stacks <= 0] nothing
    is drawn; with [slices = 0] (and a stack to draw) the division by
    [slices] raises [ZeroDivisionError] right after the first [glBegin],
    which is left without its [glEnd]; with [slices < 0] every strip is
    empty. *)
Theorem render_sphere_degenerate (np_pi : Q) (np_sin np_cos : Q → Q)
    (radius : Q) (slices stacks : Z) :
  (stacks ≤ 0 → render_sphere np_pi np_sin np_cos radius slices stacks = ([], false)) ∧
  (1 ≤ stacks → slices = 0 →
   render_sphere np_pi np_sin np_cos radius slices stacks = ([GlBeginQuadStrip], true)) ∧
  (1 ≤ stacks → slices < 0 →
   render_sphere np_pi np_sin np_cos radius slices stacks
   = (seqZ 0 stacks ≫= (λ _ : Z, [GlBeginQuadStrip; GlEnd]), false)).
Proof.
  unfold render_sphere. split; [| split].
  - intros Hst. by rewrite seqZ_nil.
  - intros Hst ->. rewrite seqZ_cons by lia. simpl.
    unfold sphere_stack. rewrite !float_div_nonzero by lia. reflexivity.
  - intros Hst Hsl. rewrite gl_for_no_raise.
    + f_equal. apply list_bind_ext; [| done]. intros i. unfold sphere_stack.
      rewrite !float_div_nonzero by lia. by rewrite seqZ_nil by lia.
    + apply Forall_forall. intros i _. unfold sphere_stack.
      rewrite !float_div_nonzero by lia. by rewrite seqZ_nil by lia.
Qed.

Lemma render_sphere_degenerate_witness :
  render_sphere (22 # 7) (λ x, x) (λ x, 1 - x)%Q 50 0 64 = ([GlBeginQuadStrip], true).
Proof.
  apply (proj1 (proj2 (render_sphere_degenerate (22 # 7) (λ x, x) (λ x, 1 - x)%Q 50 0 64)));
    [lia | reflexivity].
Defined.

(** X20. In every reachable world [draw] issues no OpenGL call while the player
    has no image, and otherwise raises nothing and binds exactly the
    player's current image, between the camera set-up (pitch first, then
    yaw, both negated) and the sphere: texture names start at 1, so the
    truth test on [self.image] never hides a texture. *)
Theorem draw_binds_current_image (token_length : string → nat)
    (np_pi : Q) (np_sin np_cos : Q → Q) (w : World) :
  reachable token_length w →
  (image (player w) = None → draw np_pi np_sin np_cos (player w) = ([], false)) ∧
  (∀ t : Texture,
     image (player w) = Some t →
     ∃ sphere : list gl_call,
       render_sphere np_pi np_sin np_cos 50 64 64 = (sphere, false) ∧
       draw np_pi np_sin np_cos (player w)
       = ([ GlClear; GlLoadIdentity;
            GluLookAt (0, 0, 0)%Q (0, 0, -1)%Q (0, 1, 0)%Q;
            GlRotatef (- (angle (player w)).2) 1 0 0;
            GlRotatef (- (angle (player w)).1) 0 1 0;
            GlEnableTexture2D; GlBindTexture t ] ++ sphere ++ [GlDisableTexture2D], false)).
Proof.
  intros Hr. apply reachable_inv in Hr as [_ _ _ _ _ _ _ _ Hct _ Him].
  split.
  - intros Hnone. unfold draw. by rewrite Hnone.
  - intros t Ht. destruct (Him t Ht) as [k Hk]. apply Hct in Hk.
    destruct t as [| t]; [lia |].
    eexists. split; [by apply render_sphere_no_raise |].
    unfold draw. rewrite Ht. by rewrite render_sphere_no_raise.
Qed.

Lemma draw_binds_current_image_witness :
  ∃ w : World,
    run word_tokens (GenerateImage :: revisit_run) (new_world (Player_init (5 # 2, 5 # 2)%Q))
      = Some w ∧
    (image (player w) = None → draw (22 # 7) (λ x, x) (λ x, 1 - x)%Q (player w) = ([], false)).
Proof.
  destruct (run word_tokens (GenerateImage :: revisit_run)
              (new_world (Player_init (5 # 2, 5 # 2)%Q))) as [w |] eqn:Hrun.
  - exists w. split; [reflexivity |].
    apply (draw_binds_current_image word_tokens (22 # 7) (λ x, x) (λ x, 1 - x)%Q w).
    exists (5 # 2, 5 # 2)%Q, (GenerateImage :: revisit_run).
    split; [| exact Hrun]. unfold in_bounds, Qle. simpl. lia.
  - vm_compute in Hrun. discriminate.
Defined.

Lemma combine_prompts_degenerate_witness :
  combine_prompts word_tokens ["A dense forest"; "A snowy mountain"]%string [0; - (1 # 2)]%Q 77
  = ""%string.
Proof.
  apply (proj1 (combine_prompts_degenerate word_tokens
                  ["A dense forest"; "A snowy mountain"]%string [0; - (1 # 2)]%Q 77)).
  repeat constructor; discriminate.
Defined.

Lemma poll_drains_in_order_witness :
  image_cache
    (poll 2 (new_world (set_image_queue [(Some (25, 25), 7%nat); (Some (26, 25), 8%nat)]
                          (Player_init (5 # 2, 5 # 2)%Q)))) !! Some (26, 25)
  = Some 2%nat.
Proof.
  destruct (poll_drains_in_order 2
              (new_world (set_image_queue [(Some (25, 25), 7%nat); (Some (26, 25), 8%nat)]
                            (Player_init (5 # 2, 5 # 2)%Q)))) as (_ & _ & Hc & _).
  apply (Hc 1%nat (Some (26, 25)) 8%nat).
  - lia.
  - reflexivity.
  - intros j' img' Hj. lia.
Defined.
